(** * Parser combinators over a positioned [std::istream]

    A shallow embedding of [parser.combinator.h].  A parser is a C++ functor
    [T operator()(std::istream &) const]; here it is a function from the
    mutable part of the stream to a [result]: the value returned together with
    the stream as the call left it, or the [ParserError] exception together
    with the stream as the [throw] left it.

    The stream is [std::istream] over a [pos_stream].  The parts of the
    standard library the header calls ([fail], [eof], [peek], [ignore],
    [setstate], [clear], [tellg], [seekg]) are written out after
    [istream.unformatted] of ISO C++11: every unformatted input function first
    builds a [sentry], and a sentry built on a stream that is not [good()]
    sets [failbit] and makes the function do nothing (the header relies on it:
    "after peeking eof s.ignore() will mark the failbit").

    Conventions.  [std::streamoff] and [int] are [Z]; signed overflow is
    undefined in C++ and positions are taken within range.  A [char] is a byte
    ([ascii]); plain [char] is signed, as g++ has it on x86-64, so that
    promoted to [int] the bytes from 128 on are negative and the byte 255,
    which is [char(EOF)], is [EOF] itself.  What [peek] returns is a value
    from 0 to 255, or [EOF].  [badbit] is never set by the header and is left
    out of the state. *)

From Stdlib Require Import ZArith Bool List Ascii String Lia.
Import ListNotations.

Local Open Scope Z_scope.

(** ** Characters *)

Definition tab : ascii := "009"%char.
Definition newline : ascii := "010"%char.
Definition char0 : ascii := "000"%char.

(** [std::char_traits<char>::int_type]: a character, or [EOF]. *)
Definition int_type := option ascii.
Definition EOF : int_type := None.

(** The conversion of [const char c = s.peek()]. *)
Definition to_char (i : int_type) : ascii :=
  match i with
  | Some a => a
  | None => "255"%char
  end.

(** The value of an [int_type]: [traits::to_int_type] of the character read,
    from 0 to 255, or [EOF], which is -1. *)
Definition int_value (i : int_type) : Z :=
  match i with
  | Some b => Z.of_nat (nat_of_ascii b)
  | None => -1
  end.

(** The integral promotion of a plain [char]: the bytes from 128 on are the
    negative values. *)
Definition char_to_int (c : ascii) : Z :=
  let n := Z.of_nat (nat_of_ascii c) in
  if n <? 128 then n else n - 256.

(** [s.peek() == *t]: the [int] that [peek] returns against the promoted
    [char] of the literal. *)
Definition int_eqb (i : int_type) (a : ascii) : bool :=
  int_value i =? char_to_int a.

(** The characters whose value as a plain [char] is not negative. *)
Definition seven_bit (c : ascii) : bool := (nat_of_ascii c <? 128)%nat.

(** [strchr(s, c) != NULL] on a NUL-terminated string: the terminator is part
    of the string searched. *)
Fixpoint strchr (s : string) (c : ascii) : bool :=
  match s with
  | EmptyString => Ascii.eqb c char0
  | String a s' =>
      if Ascii.eqb a c then true
      else if Ascii.eqb a char0 then false
      else strchr s' c
  end.

(** [<cctype>] in the "C" locale. *)
Definition in_range (lo hi : ascii) (c : ascii) : bool :=
  (nat_of_ascii lo <=? nat_of_ascii c)%nat && (nat_of_ascii c <=? nat_of_ascii hi)%nat.

Definition isdigit (c : ascii) : bool := in_range "0" "9" c.
Definition isalpha (c : ascii) : bool := in_range "A" "Z" c || in_range "a" "z" c.
Definition isalnum (c : ascii) : bool := isalpha c || isdigit c.

(** ** [pos_stream::Pos] *)

Record Pos : Type := mkPos { off : Z; row : Z; col : Z }.

(** [Pos() : off(0), row(1), col(1)] *)
Definition Pos0 : Pos := mkPos 0 1 1.

(** [void update(char c)]; [%] truncates towards zero, as [Z.rem]. *)
Definition update (p : Pos) (c : ascii) : Pos :=
  let off' := off p + 1 in
  if Ascii.eqb c tab then mkPos off' (row p) (col p + (8 - Z.rem (col p - 1) 8))
  else if Ascii.eqb c newline then mkPos off' (row p + 1) 1
  else mkPos off' (row p) (col p + 1).

(** ** The stream *)

(** What the wrapped [std::streambuf *sbuf] reads from: the characters, and
    whether [pubseekoff]/[pubseekpos] work on it.  Parsers never change it. *)
Record source : Type := mkSource { chars : list ascii; seekable : bool }.

(** The mutable state of a [std::istream] over a [pos_stream]: the two state
    bits, the read position of the wrapped buffer, and the members [pos] and
    [c] (last character read) of [pos_stream]. *)
Record istream : Type := mkStream {
  failbit : bool;
  eofbit : bool;
  gpos : nat;
  pos : Pos;
  lastc : ascii
}.

(** A stream freshly opened: no bit set, nothing read; [lastc] stands for the
    uninitialised member [c]. *)
Definition fresh (c0 : ascii) : istream := mkStream false false 0 Pos0 c0.

(** [s.fail()], [s.eof()] and [s.good()]. *)
Definition fail (s : istream) : bool := failbit s.
Definition eof (s : istream) : bool := eofbit s.
Definition good (s : istream) : bool := negb (failbit s) && negb (eofbit s).

(** [s.setstate(std::ios::failbit)], and the [setstate(eofbit)] of the
    input functions. *)
Definition setstate_failbit (s : istream) : istream :=
  mkStream true (eofbit s) (gpos s) (pos s) (lastc s).

Definition setstate_eofbit (s : istream) : istream :=
  mkStream (failbit s) true (gpos s) (pos s) (lastc s).

(** [s.clear()]: the state becomes [goodbit]. *)
Definition clear (s : istream) : istream :=
  mkStream false false (gpos s) (pos s) (lastc s).

(** [pos(s) = p]. *)
Definition set_pos (s : istream) (p : Pos) : istream :=
  mkStream (failbit s) (eofbit s) (gpos s) p (lastc s).

(** [istream::sentry(s, true)]: the flag tells whether the stream was good. *)
Definition sentry (s : istream) : bool * istream :=
  if good s then (true, s) else (false, setstate_failbit s).

(** [sbuf->sgetc()]: the character at the read position, or [EOF]. *)
Definition sgetc (src : source) (s : istream) : int_type :=
  nth_error (chars src) (gpos s).

(** [s.peek()]: behind a sentry, [rdbuf()->sgetc()]; reading [EOF] sets
    [eofbit] and nothing else. *)
Definition peek (src : source) (s : istream) : int_type * istream :=
  let (ok, s1) := sentry s in
  if ok then
    match sgetc src s1 with
    | Some a => (Some a, s1)
    | None => (EOF, setstate_eofbit s1)
    end
  else (EOF, s1).

(** [s.ignore()]: behind a sentry, [rdbuf()->sbumpc()], which is
    [pos_stream::uflow]: [return c = sbuf->sbumpc()]. *)
Definition ignore (src : source) (s : istream) : istream :=
  let (ok, s1) := sentry s in
  if ok then
    match sgetc src s1 with
    | Some a => mkStream (failbit s1) (eofbit s1) (S (gpos s1)) (pos s1) a
    | None => mkStream (failbit s1) true (gpos s1) (pos s1) (to_char EOF)
    end
  else s1.

(** [update_pos(s)]: [ps->pos.update(ps->c)]. *)
Definition update_pos (s : istream) : istream :=
  set_pos s (update (pos s) (lastc s)).

(** [tellg(s, since)]: [pos.off - since]. *)
Definition tellg (s : istream) (since : Z) : Z := off (pos s) - since.

(** [s.tellg()]: behind a sentry, [pubseekoff(0, cur, in)] of the wrapped
    buffer; [None] is [pos_type(-1)]. *)
Definition istream_tellg (src : source) (s : istream) : option nat * istream :=
  let (ok, s1) := sentry s in
  if ok then (if seekable src then Some (gpos s1) else None, s1)
  else (None, s1).

(** [s.seekg(p)]: clears [eofbit], then behind a sentry and unless [fail()],
    [pubseekpos(p, in)]; a buffer that cannot seek makes it set [failbit]. *)
Definition seekg (src : source) (p : nat) (s : istream) : istream :=
  let s0 := mkStream (failbit s) false (gpos s) (pos s) (lastc s) in
  let (ok, s1) := sentry s0 in
  if ok then
    if seekable src then mkStream (failbit s1) (eofbit s1) p (pos s1) (lastc s1)
    else setstate_failbit s1
  else s1.

(** ** Results and the macros *)

(** How a call [p->operator()(s)] ends: [return t] or [throw ParserError()],
    each with the stream as it is then; [OutOfFuel] when a loop of the model
    was cut short. *)
Inductive result (T : Type) : Type :=
| Return (t : T) (s : istream)
| ParserError (s : istream)
| OutOfFuel.

Arguments Return {T} t s.
Arguments ParserError {T} s.
Arguments OutOfFuel {T}.

Definition parser (T : Type) : Type := istream -> result T.

(** The value [T()]. *)
Class Default (T : Type) : Type := default : T.

#[export] Instance Default_char : Default ascii := char0.
#[export] Instance Default_unit : Default unit := tt.
#[export] Instance Default_list (T : Type) : Default (list T) := [].
#[export] Instance Default_Z : Default Z := 0.

(** A call of a sub-parser followed by the rest of the function body. *)
Definition call {U T : Type} (r : result U) (k : U -> istream -> result T) : result T :=
  match r with
  | Return u s => k u s
  | ParserError s => ParserError s
  | OutOfFuel => OutOfFuel
  end.

Notation "'call!' ( u , s ) <- r ; k" := (call r (fun u s => k))
  (at level 10, u name, s name, r at level 100, k at level 200).

(** [MARK]: [std::streamoff _off(tellg(s, 0))]. *)
Definition MARK (s : istream) : Z := tellg s 0.

(** The test [s.fail() && tellg(s, _off)] of [CHECK] and [RETURN]. *)
Definition failed_since (_off : Z) (s : istream) : bool :=
  fail s && negb (tellg s _off =? 0).

(** [RETURN(t)], and so [CHECK; return t]. *)
Definition RETURN {T : Type} (_off : Z) (t : T) (s : istream) : result T :=
  if failed_since _off s then ParserError s else Return t s.

(** [RETURN_IF_FAIL(t) rest]. *)
Definition RETURN_IF_FAIL {T : Type} (_off : Z) (t : T) (s : istream)
    (rest : result T) : result T :=
  if fail s then
    if negb (tellg s _off =? 0) then ParserError s else Return t s
  else rest.

(** ** Leaf parsers *)

(** [parser_match::operator()], for the virtual [match]. *)
Definition parser_match (src : source) (match_ : ascii -> bool) : parser ascii :=
  fun s =>
    if fail s then ParserError s
    else
      let (i, s1) := peek src s in
      let c := to_char i in
      if match_ c then Return c (update_pos (ignore src s1))
      else Return char0 (setstate_failbit s1).

Definition chr (src : source) (c : ascii) : parser ascii :=
  parser_match src (fun c' => Ascii.eqb c' c).

Definition any_chr (src : source) : parser ascii :=
  parser_match src (fun _ => true).

Definition one_of (src : source) (t : string) : parser ascii :=
  parser_match src (fun c => strchr t c).

Definition none_of (src : source) (t : string) : parser ascii :=
  parser_match src (fun c => negb (strchr t c)).

Definition blank (src : source) : parser ascii := one_of src (String " " (String tab EmptyString)).

Definition letter (src : source) : parser ascii := parser_match src isalpha.
Definition alphanum (src : source) : parser ascii := parser_match src isalnum.
Definition digit (src : source) : parser ascii := parser_match src isdigit.

(** [parser_eof::operator()] *)
Definition parser_eof (src : source) : parser unit :=
  fun s =>
    if fail s then ParserError s
    else if eof s then Return tt s
    else
      let (i, s1) := peek src s in
      match i with
      | None => Return tt s1
      | Some _ => Return tt (setstate_failbit s1)
      end.

(** [parser_skip<T>::operator()] *)
Definition parser_skip {T : Type} (p : parser T) : parser unit :=
  fun s => call! (_, s1) <- p s; Return tt s1.

Definition skip_chr (src : source) (c : ascii) : parser unit := parser_skip (chr src c).

(** The [for] loop of [parser_str::operator()], from [t] on. *)
Fixpoint parser_str_loop (src : source) (_off : Z) (t : string) (s : istream) : result unit :=
  match t with
  | EmptyString => Return tt s
  | String a t' =>
      if Ascii.eqb a char0 then Return tt s
      else
        let (i, s1) := peek src s in
        if int_eqb i a then parser_str_loop src _off t' (update_pos (ignore src s1))
        else RETURN _off tt (setstate_failbit s1)
  end.

(** [parser_str::operator()], that is [skip("abc")]. *)
Definition parser_str (src : source) (t : string) : parser unit :=
  fun s =>
    if fail s then ParserError s
    else parser_str_loop src (MARK s) t s.

(** ** Combinators *)

(** [parser_map<U, T>::operator()], that is [p >> f]. *)
Definition parser_map {U T : Type} `{Default T} (p : parser U) (f : U -> T) : parser T :=
  fun s =>
    call! (u, s1) <- p s;
    if fail s1 then Return default s1 else Return (f u) s1.

(** [parser_chain<U, T>::operator()], [p >> f] for a parsing function
    [T f(std::istream &, U)]. *)
Definition parser_chain {U T : Type} `{Default T} (p : parser U) (f : U -> parser T) : parser T :=
  fun s =>
    call! (u, s1) <- p s;
    if fail s1 then Return default s1 else f u s1.

(** [parser_cat::operator()], that is [p + q]; a [std::string] is the list of
    its characters. *)
Definition parser_cat (p q : parser (list ascii)) : parser (list ascii) :=
  fun s =>
    let _off := MARK s in
    call! (t, s1) <- p s;
    if negb (fail s1) then
      call! (t', s2) <- q s1;
      RETURN _off (t ++ t') s2
    else Return t s1.

Definition char_to_string (c : ascii) : list ascii := [c].

(** Unary [+p]. *)
Definition to_string_parser (p : parser ascii) : parser (list ascii) :=
  parser_map p char_to_string.

(** The [for] loop of [parser_many<C>::operator()]; the container [C] is a
    list and [c.insert(c.end(), t)] appends. *)
Fixpoint many_loop {T : Type} (p : parser T) (fuel : nat) (c : list T) (s : istream)
    : result (list T) :=
  match fuel with
  | O => OutOfFuel
  | S fuel' =>
      call! (t, s1) <- p s;
      if fail s1 then Return c (clear s1)
      else many_loop p fuel' (c ++ [t]) s1
  end.

(** [parser_many<C>::operator()], that is [many<C>(p)]. *)
Definition parser_many {T : Type} (fuel : nat) (p : parser T) : parser (list T) :=
  fun s => many_loop p fuel [] s.

(** [parser_many<void>::operator()]: [do p(s); while ( !s.fail() ); s.clear();] *)
Fixpoint parser_many_void (fuel : nat) (p : parser unit) (s : istream) : result unit :=
  match fuel with
  | O => OutOfFuel
  | S fuel' =>
      call! (_, s1) <- p s;
      if negb (fail s1) then parser_many_void fuel' p s1
      else Return tt (clear s1)
  end.

(** [blanks()] *)
Definition blanks (src : source) (fuel : nat) : parser unit :=
  parser_many_void fuel (parser_skip (blank src)).

(** The [for] loop of [parser_many1<T>::operator()]. *)
Fixpoint many1_loop {T : Type} (p : parser T) (f : T -> T -> T) (fuel : nat) (c : T)
    (s : istream) : result T :=
  match fuel with
  | O => OutOfFuel
  | S fuel' =>
      call! (t, s1) <- p s;
      if fail s1 then Return c (clear s1)
      else many1_loop p f fuel' (f c t) s1
  end.

(** [parser_many1<T>::operator()], that is [many1(p, f)]. *)
Definition parser_many1 {T : Type} (fuel : nat) (p : parser T) (f : T -> T -> T) : parser T :=
  fun s =>
    call! (c, s1) <- p s;
    if fail s1 then Return c s1
    else many1_loop p f fuel c s1.

(** [parser_many1<void>::operator()] *)
Definition parser_many1_void (fuel : nat) (p : parser unit) : parser unit :=
  fun s =>
    call! (_, s1) <- p s;
    if negb (fail s1) then parser_many_void fuel p s1
    else Return tt s1.

(** [parser_seq<U, T>::operator()], that is [p > q]. *)
Definition parser_seq {U T : Type} `{Default T} (p : parser U) (q : parser T) : parser T :=
  fun s =>
    let _off := MARK s in
    call! (_, s1) <- p s;
    if fail s1 then Return default s1
    else
      call! (t, s2) <- q s1;
      RETURN _off t s2.

(** [parser_seq<T, void>::operator()], [p > q] for a void parser [q];
    [parser_seq<void, void>] is the same body at [T = void]. *)
Definition parser_seq_void {T : Type} (p : parser T) (q : parser unit) : parser T :=
  fun s =>
    let _off := MARK s in
    call! (t, s1) <- p s;
    if negb (fail s1) then
      call! (_, s2) <- q s1;
      RETURN _off t s2
    else Return t s1.

(** The [for] loop of [parser_sep_by<C, U>::operator()]. *)
Fixpoint sep_by_loop {T U : Type} (p : parser T) (q : parser U) (_off : Z) (fuel : nat)
    (c : list T) (s : istream) : result (list T) :=
  match fuel with
  | O => OutOfFuel
  | S fuel' =>
      call! (_, s1) <- q s;
      if fail s1 then Return c (clear s1)
      else
        call! (t, s2) <- p s1;
        RETURN_IF_FAIL _off default s2
          (sep_by_loop p q _off fuel' (c ++ [t]) s2)
  end.

(** [parser_sep_by<C, U>::operator()], that is [sep_by<C>(p, q)]. *)
Definition parser_sep_by {T U : Type} (fuel : nat) (p : parser T) (q : parser U)
    : parser (list T) :=
  fun s =>
    let _off := MARK s in
    call! (t, s1) <- p s;
    if fail s1 then Return [] (clear s1)
    else sep_by_loop p q _off fuel [t] s1.

(** The [while] loop of [parser_sep_by<void, U>::operator()] and the
    [s.clear()] after it. *)
Fixpoint sep_by_void_loop {U : Type} (p : parser unit) (q : parser U) (_off : Z) (fuel : nat)
    (s : istream) : result unit :=
  match fuel with
  | O => OutOfFuel
  | S fuel' =>
      call! (_, s1) <- q s;
      if negb (fail s1) then
        call! (_, s2) <- p s1;
        RETURN_IF_FAIL _off tt s2 (sep_by_void_loop p q _off fuel' s2)
      else Return tt (clear s1)
  end.

(** [parser_sep_by<void, U>::operator()] *)
Definition parser_sep_by_void {U : Type} (fuel : nat) (p : parser unit) (q : parser U)
    : parser unit :=
  fun s =>
    let _off := MARK s in
    call! (_, s1) <- p s;
    if negb (fail s1) then sep_by_void_loop p q _off fuel s1
    else Return tt (clear s1).

(** The [for] loop of [parser_sep_by1<T, U>::operator()]. *)
Fixpoint sep_by1_loop {T U : Type} `{Default T} (p : parser T) (q : parser U)
    (f : T -> T -> T) (_off : Z) (fuel : nat) (c : T) (s : istream) : result T :=
  match fuel with
  | O => OutOfFuel
  | S fuel' =>
      call! (_, s1) <- q s;
      if fail s1 then Return c (clear s1)
      else
        call! (t, s2) <- p s1;
        RETURN_IF_FAIL _off default s2
          (sep_by1_loop p q f _off fuel' (f c t) s2)
  end.

(** [parser_sep_by1<T, U>::operator()], that is [sep_by1(p, q, f)]. *)
Definition parser_sep_by1 {T U : Type} `{Default T} (fuel : nat) (p : parser T)
    (q : parser U) (f : T -> T -> T) : parser T :=
  fun s =>
    let _off := MARK s in
    call! (c, s1) <- p s;
    if fail s1 then Return c s1
    else sep_by1_loop p q f _off fuel c s1.

(** [parser_sep_by1<void, U>] is not modelled: its body
    [do { ... } while ( !s.fail() ) s.clear();] lacks the semicolon that ends
    a [do] statement and is ill-formed. *)

(** [parser_alt<T>::operator()], that is [p | q]. *)
Definition parser_alt {T : Type} (p q : parser T) : parser T :=
  fun s =>
    call! (t, s1) <- p s;
    if negb (fail s1) then Return t s1
    else q (clear s1).

(** [parser_alt<void>::operator()] *)
Definition parser_alt_void (p q : parser unit) : parser unit :=
  fun s =>
    call! (_, s1) <- p s;
    if fail s1 then q (clear s1)
    else Return tt s1.

(** [parser_try<T>::operator()], that is [try_(p)]: the handler of
    [catch ( ParserError )] restores the stream when [s.tellg()] had worked. *)
Definition parser_try {T : Type} `{Default T} (src : source) (p : parser T) : parser T :=
  fun s =>
    let saved_pos := pos s in
    let (tellg_, s0) := istream_tellg src s in
    match p s0 with
    | Return t s1 => Return t s1
    | ParserError s1 =>
        match tellg_ with
        | Some g =>
            Return default (set_pos (setstate_failbit (seekg src g (clear s1))) saved_pos)
        | None => Return default s1
        end
    | OutOfFuel => OutOfFuel
    end.

(** ** Runs of a repeated parser *)

(** [iterates p s l s']: from [s], [length l] applications of [p] in a row
    succeed, yielding [l] in order and leaving [s']. *)
Inductive iterates {T : Type} (p : parser T) : istream -> list T -> istream -> Prop :=
| iterates_nil : forall s, iterates p s [] s
| iterates_cons : forall s t s1 l s2,
    p s = Return t s1 -> fail s1 = false -> iterates p s1 l s2 ->
    iterates p s (t :: l) s2.

(** [sep_iterates p q s l s']: from [s], the pair "separator [q], element [p]"
    succeeds [length l] times in a row, the elements being [l]. *)
Inductive sep_iterates {T U : Type} (p : parser T) (q : parser U)
    : istream -> list T -> istream -> Prop :=
| sep_iterates_nil : forall s, sep_iterates p q s [] s
| sep_iterates_cons : forall s u s1 t s2 l s3,
    q s = Return u s1 -> fail s1 = false ->
    p s1 = Return t s2 -> fail s2 = false ->
    sep_iterates p q s2 l s3 ->
    sep_iterates p q s (t :: l) s3.

(** Characters of the source not read yet. *)
Definition remaining (src : source) (s : istream) : nat :=
  (List.length (chars src) - gpos s)%nat.

(** A parser that always ends and whose every success reads at least one
    character of the source: the loops over it end. *)
Definition productive {T : Type} (src : source) (p : parser T) : Prop :=
  forall s,
    match p s with
    | Return _ s1 => fail s1 = false -> (remaining src s1 < remaining src s)%nat
    | ParserError _ => True
    | OutOfFuel => False
    end.

(** Success: a return with the failure flag clear. *)
Definition succeeds {T : Type} (r : result T) : Prop :=
  exists t s, r = Return t s /\ fail s = false.

(** Error failure: [ParserError] is thrown. *)
Definition throws {T : Type} (r : result T) : Prop :=
  exists s, r = ParserError s.

(** ** Inputs used below *)

(** A seekable source holding the characters of [t]. *)
Definition source_of (t : string) : source :=
  mkSource (list_ascii_of_string t) true.

(** The freshly opened stream, the member [c] holding a NUL. *)
Definition s_fresh : istream := fresh char0.

(** The stream at the end of an empty source after [eof()] has succeeded on
    it: [eofbit] is latched by the [peek], nothing else has changed. *)
Definition s_at_eof : istream := mkStream false true 0 Pos0 char0.

(** A stream at the start of its source whose failure flag is already set. *)
Definition s_failed : istream := mkStream true false 0 Pos0 char0.

(** [eof() >> f] for an [f] that returns ['e']. *)
Definition eof_e (src : source) : parser ascii :=
  parser_map (parser_eof src) (fun _ : unit => "e"%char).

(** The combiner [f(a, b)] that keeps the later character. *)
Definition later (a b : ascii) : ascii := b.

(** ** Parsers of the library *)

(** A property of the stream in which a call ends, by return or by
    exception. *)
Definition post {T : Type} (Q : istream -> Prop) (r : result T) : Prop :=
  match r with
  | Return _ s' => Q s'
  | ParserError s' => Q s'
  | OutOfFuel => True
  end.

(** From [s] to [s']: the position is the same, or the offset has grown. *)
Definition adv (s s' : istream) : Prop :=
  pos s' = pos s \/ off (pos s) < off (pos s').

Definition advancing {T : Type} (p : parser T) : Prop :=
  forall s, post (adv s) (p s).

(** From [s] to [s']: neither the position nor the read position of the
    source has changed. *)
Definition same_place (s s' : istream) : Prop :=
  pos s' = pos s /\ gpos s' = gpos s.

(** The source has nothing left to read. *)
Definition at_end (src : source) (s : istream) : Prop := sgetc src s = None.

(** [follows I R p]: from a stream in [I], however [p] ends, the stream it
    leaves is related by [R] to the stream of entry. *)
Definition follows (I : istream -> Prop) (R : istream -> istream -> Prop)
    {T : Type} (p : parser T) : Prop :=
  forall s, I s -> post (R s) (p s).

(** A property of the stream in which a call returns. *)
Definition post_return {T : Type} (Q : istream -> Prop) (r : result T) : Prop :=
  match r with
  | Return _ s' => Q s'
  | _ => True
  end.

(** [s'] is not failed, or it is at the position of [s]. *)
Definition weak_at (s s' : istream) : Prop :=
  fail s' = true -> pos s' = pos s.

(** On a good stream, a return with the failure flag set leaves the position
    where it was on entry. *)
Definition returns_weak {T : Type} (p : parser T) : Prop :=
  forall s, good s = true -> post_return (weak_at s) (p s).

(** The parsers built from the leaves and combinators above over one seekable
    or unseekable source.

    With [eof_safe] the end of input is not taken for a character: the
    character leaves are those whose [match] rejects [char(EOF)] ([chr],
    [one_of], [blank], [letter], [alphanum] and [digit] for 7-bit
    characters; not [any_chr] and [none_of]), and the literals of [skip]
    hold no [char(EOF)] before their terminator.  Without it every leaf is
    in.

    With [chains], [parser_chain] is in, for the parsing functions that
    themselves only run parsers built this way.  The void form of
    [sep_by1], which does not compile, has no constructor. *)
Inductive built_parser (eof_safe chains : bool) (src : source) :
    forall {T : Type}, parser T -> Prop :=
| lib_match (m : ascii -> bool) :
    (eof_safe = true -> m (to_char EOF) = false) ->
    built_parser eof_safe chains src (parser_match src m)
| lib_eof : built_parser eof_safe chains src (parser_eof src)
| lib_str (t : string) :
    (eof_safe = true -> strchr t (to_char EOF) = false) ->
    built_parser eof_safe chains src (parser_str src t)
| lib_skip (T : Type) (p : parser T) :
    built_parser eof_safe chains src p ->
    built_parser eof_safe chains src (parser_skip p)
| lib_map (U T : Type) (D : Default T) (p : parser U) (f : U -> T) :
    built_parser eof_safe chains src p ->
    built_parser eof_safe chains src (parser_map p f)
| lib_chain (U T : Type) (D : Default T) (p : parser U) (f : U -> parser T) :
    chains = true ->
    built_parser eof_safe chains src p ->
    (forall u, built_parser eof_safe chains src (f u)) ->
    built_parser eof_safe chains src (parser_chain p f)
| lib_cat (p q : parser (list ascii)) :
    built_parser eof_safe chains src p -> built_parser eof_safe chains src q ->
    built_parser eof_safe chains src (parser_cat p q)
| lib_many (T : Type) (fuel : nat) (p : parser T) :
    built_parser eof_safe chains src p ->
    built_parser eof_safe chains src (parser_many fuel p)
| lib_many_void (fuel : nat) (p : parser unit) :
    built_parser eof_safe chains src p ->
    built_parser eof_safe chains src (parser_many_void fuel p)
| lib_many1 (T : Type) (fuel : nat) (p : parser T) (f : T -> T -> T) :
    built_parser eof_safe chains src p ->
    built_parser eof_safe chains src (parser_many1 fuel p f)
| lib_many1_void (fuel : nat) (p : parser unit) :
    built_parser eof_safe chains src p ->
    built_parser eof_safe chains src (parser_many1_void fuel p)
| lib_seq (U T : Type) (D : Default T) (p : parser U) (q : parser T) :
    built_parser eof_safe chains src p -> built_parser eof_safe chains src q ->
    built_parser eof_safe chains src (parser_seq p q)
| lib_seq_void (T : Type) (p : parser T) (q : parser unit) :
    built_parser eof_safe chains src p -> built_parser eof_safe chains src q ->
    built_parser eof_safe chains src (parser_seq_void p q)
| lib_sep_by (T U : Type) (fuel : nat) (p : parser T) (q : parser U) :
    built_parser eof_safe chains src p -> built_parser eof_safe chains src q ->
    built_parser eof_safe chains src (parser_sep_by fuel p q)
| lib_sep_by_void (U : Type) (fuel : nat) (p : parser unit) (q : parser U) :
    built_parser eof_safe chains src p -> built_parser eof_safe chains src q ->
    built_parser eof_safe chains src (parser_sep_by_void fuel p q)
| lib_sep_by1 (T U : Type) (D : Default T) (fuel : nat) (p : parser T) (q : parser U)
    (f : T -> T -> T) :
    built_parser eof_safe chains src p -> built_parser eof_safe chains src q ->
    built_parser eof_safe chains src (parser_sep_by1 fuel p q f)
| lib_alt (T : Type) (p q : parser T) :
    built_parser eof_safe chains src p -> built_parser eof_safe chains src q ->
    built_parser eof_safe chains src (parser_alt p q)
| lib_alt_void (p q : parser unit) :
    built_parser eof_safe chains src p -> built_parser eof_safe chains src q ->
    built_parser eof_safe chains src (parser_alt_void p q)
| lib_try (T : Type) (D : Default T) (p : parser T) :
    built_parser eof_safe chains src p ->
    built_parser eof_safe chains src (parser_try src p).

(** The parsers of the library that do not take the end of input for a
    character, [parser_chain], which runs a function of the caller, apart. *)
Definition library_parser (src : source) {T : Type} (p : parser T) : Prop :=
  built_parser true false src p.

(** ** Runs of characters *)

(** The characters of the source from the read position on. *)
Definition rest (src : source) (s : istream) : list ascii :=
  skipn (gpos s) (chars src).

(** The position after the characters [l] have been consumed in order. *)
Definition updates (p : Pos) (l : list ascii) : Pos := fold_left update l p.

(** The stream a good stream [s] becomes once the characters [l] have been
    read off the source and counted. *)
Definition consumed (s : istream) (l : list ascii) : istream :=
  mkStream false false (List.length l + gpos s) (updates (pos s) l) (last l (lastc s)).

(** The longest prefix of [l] whose characters pass [m]. *)
Fixpoint take_while (m : ascii -> bool) (l : list ascii) : list ascii :=
  match l with
  | [] => []
  | a :: l' => if m a then a :: take_while m l' else []
  end.

(** The [match] of [blank()], that is of [one_of(" \t")]. *)
Definition blank_match (c : ascii) : bool :=
  strchr (String " " (String tab EmptyString)) c.

(** From [s] to [s']: the offset has moved exactly as the read position of
    the source has. *)
Definition in_step (s s' : istream) : Prop :=
  off (pos s') - Z.of_nat (gpos s') = off (pos s) - Z.of_nat (gpos s).

(** [skip(a1) > (skip(a2) > ... skip(an))] for the characters of [t]: the
    sequence of single-character parsers that the header says [skip(t)]
    equals. *)
Fixpoint skip_each (src : source) (t : string) : parser unit :=
  match t with
  | EmptyString => parser_str src EmptyString
  | String a EmptyString => skip_chr src a
  | String a t' => parser_seq_void (skip_chr src a) (skip_each src t')
  end.

(** * Properties *)

(** ** Position arithmetic *)

Lemma tab_column (c : Z) :
  1 <= c -> c + (8 - Z.rem (c - 1) 8) = 8 * ((c - 1) / 8) + 9.
Proof.
  intros Hc.
  rewrite Z.rem_mod_nonneg by lia.
  pose proof (Z.div_mod (c - 1) 8 ltac:(lia)) as Hdm.
  lia.
Qed.

(** C8 (as amended).  Every consumed character adds exactly one to [off]; a
    newline sets [col] to 1 and adds one to [row]; a tab at column [c >= 1]
    leaves [row] and moves to column [8 * floor((c - 1) / 8) + 9], the next
    tab stop among 1, 9, 17, ... (so column 9 from column 1, from column 5
    and from column 8 alike); any other character adds one to [col]. *)
Theorem update_position_law (p : Pos) (c : ascii) :
  off (update p c) = off p + 1 /\
  (c = newline -> row (update p c) = row p + 1 /\ col (update p c) = 1) /\
  (c = tab -> 1 <= col p ->
     row (update p c) = row p /\ col (update p c) = 8 * ((col p - 1) / 8) + 9) /\
  (c = tab -> col p = 1 \/ col p = 5 \/ col p = 8 -> col (update p c) = 9) /\
  (c <> tab -> c <> newline ->
     row (update p c) = row p /\ col (update p c) = col p + 1).
Proof.
  unfold update.
  split; [|split; [|split; [|split]]].
  - destruct (Ascii.eqb c tab); [|destruct (Ascii.eqb c newline)]; reflexivity.
  - intros ->. split; reflexivity.
  - intros -> Hc. simpl. split; [reflexivity | now apply tab_column].
  - intros -> [H|[H|H]]; simpl; rewrite H; reflexivity.
  - intros Ht Hn.
    destruct (Ascii.eqb_spec c tab) as [|_]; [contradiction|].
    destruct (Ascii.eqb_spec c newline) as [|_]; [contradiction|].
    split; reflexivity.
Qed.

Lemma update_position_law_witness :
  1 <= col (mkPos 12 3 8) /\
  col (update (mkPos 12 3 8) tab) = 8 * ((col (mkPos 12 3 8) - 1) / 8) + 9.
Proof.
  split; [simpl; lia|].
  destruct (update_position_law (mkPos 12 3 8) tab) as (_ & _ & Htab & _).
  apply Htab; [reflexivity | simpl; lia].
Defined.

(** C8 as stated fails at every column that is a multiple of 8: a tab at
    column 8 moves to column 9, where [8 * floor(8 / 8) + 9] is 17. *)
Lemma tab_at_column_8 :
  col (update (mkPos 7 1 8) tab) = 9 /\
  col (update (mkPos 7 1 8) tab) <> 8 * (col (mkPos 7 1 8) / 8) + 9.
Proof. split; [reflexivity | discriminate]. Qed.

(** ** Leaves on a stream that has already failed *)

Lemma parser_match_failed (src : source) (m : ascii -> bool) (s : istream) :
  fail s = true -> parser_match src m s = ParserError s.
Proof. intros Hf. unfold parser_match. now rewrite Hf. Qed.

Lemma parser_str_failed (src : source) (t : string) (s : istream) :
  fail s = true -> parser_str src t s = ParserError s.
Proof. intros Hf. unfold parser_str. now rewrite Hf. Qed.

Lemma parser_eof_failed (src : source) (s : istream) :
  fail s = true -> parser_eof src s = ParserError s.
Proof. intros Hf. unfold parser_eof. now rewrite Hf. Qed.

(** C10.  Applied to a stream whose failure flag is already set, every leaf
    ([chr], [any_chr], [one_of], [none_of], [blank], [letter], [alphanum],
    [digit], [skip] of a literal string, [eof]) throws [ParserError] at once
    and leaves the stream exactly as it was: nothing is read and the position
    is unchanged, whatever the next character is. *)
Theorem leaf_throws_on_failed_stream (src : source) (s : istream) :
  fail s = true ->
  (forall c, chr src c s = ParserError s) /\
  any_chr src s = ParserError s /\
  (forall t, one_of src t s = ParserError s) /\
  (forall t, none_of src t s = ParserError s) /\
  blank src s = ParserError s /\
  letter src s = ParserError s /\
  alphanum src s = ParserError s /\
  digit src s = ParserError s /\
  (forall t, parser_str src t s = ParserError s) /\
  parser_eof src s = ParserError s.
Proof.
  intros Hf.
  repeat match goal with |- _ /\ _ => split end; intros;
    first [ now apply parser_match_failed
          | now apply parser_str_failed
          | now apply parser_eof_failed ].
Qed.

(** On ["a"], with the flag set, [chr('a')] throws although ['a'] is next. *)
Lemma leaf_throws_on_failed_stream_witness :
  fail s_failed = true /\
  sgetc (source_of "a") s_failed = Some "a"%char /\
  chr (source_of "a") "a" s_failed = ParserError s_failed.
Proof.
  split; [reflexivity|]. split; [reflexivity|].
  apply (leaf_throws_on_failed_stream (source_of "a") s_failed). reflexivity.
Defined.

(** ** Sequence *)

Lemma failed_since_true (_off : Z) (s : istream) :
  fail s = true -> off (pos s) <> _off -> failed_since _off s = true.
Proof.
  intros Hf Ho. unfold failed_since, tellg. rewrite Hf. simpl.
  apply negb_true_iff, Z.eqb_neq. lia.
Qed.

Lemma failed_since_same (_off : Z) (s : istream) :
  off (pos s) = _off -> failed_since _off s = false.
Proof.
  intros Ho. unfold failed_since, tellg.
  replace (off (pos s) - _off =? 0) with true by (symmetry; apply Z.eqb_eq; lia).
  apply andb_false_r.
Qed.

Lemma failed_since_unfailed (_off : Z) (s : istream) :
  fail s = false -> failed_since _off s = false.
Proof. intros Hf. unfold failed_since. now rewrite Hf. Qed.

(** C1 (as amended).  In [p > q]: when [p] fails, [q] is not run and the
    failure keeps its tier (a weak failure is returned with the stream as [p]
    left it, a [ParserError] passes through).  When [p] succeeds and [q]
    fails weakly, the sequence throws [ParserError] exactly when the offset
    differs from the offset at the sequence's own entry; when nothing has
    been consumed since then, the failure is returned as a weak failure.  A
    [ParserError] of [q] passes through, and a success of [q] is the
    sequence's. *)
Theorem seq_outcome {U T : Type} `{Default T} (p : parser U) (q : parser T) (s : istream) :
  (forall u s1, p s = Return u s1 -> fail s1 = true ->
     parser_seq p q s = Return default s1) /\
  (forall s1, p s = ParserError s1 -> parser_seq p q s = ParserError s1) /\
  (forall u s1, p s = Return u s1 -> fail s1 = false ->
     (forall s2, q s1 = ParserError s2 -> parser_seq p q s = ParserError s2) /\
     (forall t s2, q s1 = Return t s2 -> fail s2 = true ->
        off (pos s2) <> off (pos s) -> parser_seq p q s = ParserError s2) /\
     (forall t s2, q s1 = Return t s2 -> fail s2 = true ->
        off (pos s2) = off (pos s) -> parser_seq p q s = Return t s2) /\
     (forall t s2, q s1 = Return t s2 -> fail s2 = false ->
        parser_seq p q s = Return t s2)).
Proof.
  unfold parser_seq, MARK, tellg.
  split; [|split].
  - intros u s1 Hp Hf. rewrite Hp. simpl. now rewrite Hf.
  - intros s1 Hp. now rewrite Hp.
  - intros u s1 Hp Hf. rewrite Hp. simpl. rewrite Hf.
    split; [|split; [|split]].
    + intros s2 Hq. now rewrite Hq.
    + intros t s2 Hq Hf2 Ho. rewrite Hq. simpl. unfold RETURN.
      rewrite failed_since_true; [reflexivity | assumption | lia].
    + intros t s2 Hq Hf2 Ho. rewrite Hq. simpl. unfold RETURN.
      rewrite failed_since_same; [reflexivity | lia].
    + intros t s2 Hq Hf2. rewrite Hq. simpl. unfold RETURN.
      now rewrite failed_since_unfailed.
Qed.

(** On ["ab"], [skip('a') > chr('x')] throws with the ['a'] consumed. *)
Lemma seq_outcome_witness :
  parser_seq (skip_chr (source_of "ab") "a") (chr (source_of "ab") "x") s_fresh
  = ParserError (mkStream true false 1 (mkPos 1 1 2) "a").
Proof.
  destruct (seq_outcome (skip_chr (source_of "ab") "a") (chr (source_of "ab") "x") s_fresh)
    as (_ & _ & Hsucc).
  destruct (Hsucc tt (mkStream false false 1 (mkPos 1 1 2) "a") eq_refl eq_refl)
    as (_ & Hesc & _).
  apply (Hesc char0); [reflexivity | reflexivity | discriminate].
Defined.

(** C1 as stated fails when [p] succeeds without consuming: on ["b"],
    [blanks()] succeeds on no blank, [chr('a')] then fails weakly, and
    [blanks() > chr('a')] returns with the flag set at offset 0, a weak
    failure and no [ParserError]. *)
Lemma seq_weak_after_empty_success :
  blanks (source_of "b") 1 s_fresh = Return tt s_fresh /\
  fail s_fresh = false /\
  chr (source_of "b") "a" s_fresh = Return char0 (mkStream true false 0 Pos0 char0) /\
  parser_seq (blanks (source_of "b") 1) (chr (source_of "b") "a") s_fresh
  = Return char0 (mkStream true false 0 Pos0 char0).
Proof. repeat split. Qed.

(** X25.  [p > q] for a void [q] returns the value of [p] and follows the
    rule of the general sequence: a failure of [p] is returned as it is and
    [q] is not run; a weak failure of [q] is thrown as [ParserError] exactly
    when the offset differs from the offset at entry. *)
Lemma seq_void_outcome {T : Type} (p : parser T) (q : parser unit) (s : istream) :
  (forall t s1, p s = Return t s1 -> fail s1 = true ->
     parser_seq_void p q s = Return t s1) /\
  (forall s1, p s = ParserError s1 -> parser_seq_void p q s = ParserError s1) /\
  (forall t s1, p s = Return t s1 -> fail s1 = false ->
     (forall s2, q s1 = ParserError s2 -> parser_seq_void p q s = ParserError s2) /\
     (forall u s2, q s1 = Return u s2 -> fail s2 = true ->
        off (pos s2) <> off (pos s) -> parser_seq_void p q s = ParserError s2) /\
     (forall u s2, q s1 = Return u s2 -> fail s2 = true ->
        off (pos s2) = off (pos s) -> parser_seq_void p q s = Return t s2) /\
     (forall u s2, q s1 = Return u s2 -> fail s2 = false ->
        parser_seq_void p q s = Return t s2)).
Proof.
  unfold parser_seq_void, MARK, tellg.
  split; [|split].
  - intros t s1 Hp Hf. rewrite Hp. simpl. now rewrite Hf.
  - intros s1 Hp. now rewrite Hp.
  - intros t s1 Hp Hf. rewrite Hp. simpl. rewrite Hf. simpl.
    split; [|split; [|split]].
    + intros s2 Hq. now rewrite Hq.
    + intros u s2 Hq Hf2 Ho. rewrite Hq. simpl. unfold RETURN.
      rewrite failed_since_true; [reflexivity | assumption | lia].
    + intros u s2 Hq Hf2 Ho. rewrite Hq. simpl. unfold RETURN.
      rewrite failed_since_same; [reflexivity | lia].
    + intros u s2 Hq Hf2. rewrite Hq. simpl. unfold RETURN.
      now rewrite failed_since_unfailed.
Qed.

(** ** Backtracking *)

Lemma sentry_good (s : istream) : good s = true -> sentry s = (true, s).
Proof. intros Hg. unfold sentry. now rewrite Hg. Qed.

Lemma istream_tellg_good (src : source) (s : istream) :
  seekable src = true -> good s = true -> istream_tellg src s = (Some (gpos s), s).
Proof.
  intros Hs Hg. unfold istream_tellg. rewrite (sentry_good s Hg). now rewrite Hs.
Qed.

Lemma seekg_clear (src : source) (g : nat) (s : istream) :
  seekable src = true ->
  seekg src g (clear s) = mkStream false false g (pos s) (lastc s).
Proof. intros Hs. unfold seekg, clear, sentry, good. simpl. now rewrite Hs. Qed.

(** The backtracking law where [try_] keeps it.  On a stream in the good
    state (neither [failbit] nor [eofbit] set) over a seekable source, where
    [s.tellg()] returns the read position: when [p] throws [ParserError],
    [try_(p)] returns normally with the failure flag set and with the source
    position, offset, row and column exactly those of entry, a weak failure;
    when [p] returns, with or without the flag set, [try_(p)] returns the
    same value and the same stream. *)
Theorem try_backtracks {T : Type} `{Default T} (src : source) (p : parser T) (s0 : istream) :
  seekable src = true -> good s0 = true ->
  (forall s1, p s0 = ParserError s1 ->
     exists s', parser_try src p s0 = Return default s' /\
       fail s' = true /\ gpos s' = gpos s0 /\
       off (pos s') = off (pos s0) /\ row (pos s') = row (pos s0) /\
       col (pos s') = col (pos s0)) /\
  (forall t s1, p s0 = Return t s1 -> parser_try src p s0 = Return t s1).
Proof.
  intros Hs Hg. unfold parser_try.
  rewrite (istream_tellg_good src s0 Hs Hg).
  split.
  - intros s1 Hp. rewrite Hp. rewrite (seekg_clear src _ s1 Hs).
    eexists. split; [reflexivity|]. simpl. repeat split.
  - intros t s1 Hp. now rewrite Hp.
Qed.

(** On ["ac"], [skip("ab")] throws after the ['a']; [try_] puts the stream
    back at offset 0, row 1, column 1 and leaves the flag set. *)
Lemma try_backtracks_witness :
  parser_str (source_of "ac") "ab" s_fresh
    = ParserError (mkStream true false 1 (mkPos 1 1 2) "a") /\
  exists s', parser_try (source_of "ac") (parser_str (source_of "ac") "ab") s_fresh
             = Return tt s' /\
    fail s' = true /\ gpos s' = 0%nat /\
    off (pos s') = 0 /\ row (pos s') = 1 /\ col (pos s') = 1.
Proof.
  split; [reflexivity|].
  destruct (try_backtracks (source_of "ac") (parser_str (source_of "ac") "ab") s_fresh
              eq_refl eq_refl) as (Hthrow & _).
  exact (Hthrow _ eq_refl).
Defined.

(** C2, evaluated where the code departs from it.  [eof()] on the empty
    input succeeds and leaves [eofbit] latched by its [peek], the failure
    flag clear; the source is seekable.  On that stream [eof()] succeeds
    again, but [try_(eof())] does not pass the success through: [s.tellg()]
    builds its sentry on a stream that is not [good()], which sets [failbit]
    and returns -1, [eof()] then throws on entry, and [try_], taking the -1
    for a stream that cannot seek, returns with the failure flag still set.
    So [eof() > eof()] succeeds on the empty input from the fresh stream and
    [eof() > try_(eof())] fails. *)
Theorem try_fails_where_eof_succeeds :
  seekable (source_of "") = true /\
  parser_eof (source_of "") s_fresh = Return tt s_at_eof /\
  fail s_at_eof = false /\
  parser_eof (source_of "") s_at_eof = Return tt s_at_eof /\
  parser_try (source_of "") (parser_eof (source_of "")) s_at_eof
    = Return tt (mkStream true true 0 Pos0 char0) /\
  fail (mkStream true true 0 Pos0 char0) = true /\
  parser_seq_void (parser_eof (source_of "")) (parser_eof (source_of "")) s_fresh
    = Return tt s_at_eof /\
  parser_seq_void (parser_eof (source_of ""))
    (parser_try (source_of "") (parser_eof (source_of ""))) s_fresh
    = Return tt (mkStream true true 0 Pos0 char0).
Proof. repeat split. Qed.

(** The same -1 on a stream entered with [failbit] set: on ["ac"],
    [try_(skip('x')) | skip("ab")] recovers from the flag, reads the ['a']
    and throws; [try_] of it restores nothing and returns at offset 1. *)
Example try_on_failed_stream_restores_nothing :
  seekable (source_of "ac") = true /\
  parser_alt_void (parser_try (source_of "ac") (skip_chr (source_of "ac") "x"))
    (parser_str (source_of "ac") "ab") s_failed
  = ParserError (mkStream true false 1 (mkPos 1 1 2) "a") /\
  parser_try (source_of "ac")
    (parser_alt_void (parser_try (source_of "ac") (skip_chr (source_of "ac") "x"))
       (parser_str (source_of "ac") "ab")) s_failed
  = Return tt (mkStream true false 1 (mkPos 1 1 2) "a").
Proof. repeat split. Qed.

(** ** Alternation *)

Lemma clear_same (s s1 : istream) :
  good s = true -> gpos s1 = gpos s -> pos s1 = pos s -> lastc s1 = lastc s ->
  clear s1 = s.
Proof.
  destruct s as [f e g p c], s1 as [f1 e1 g1 p1 c1]. unfold good, clear. simpl.
  intros Hg -> -> ->.
  apply andb_true_iff in Hg as [Hf He].
  apply negb_true_iff in Hf, He. now subst.
Qed.

(** C3 (as amended).  In [p | q]: a success of [p] is returned; a
    [ParserError] of [p] passes through with the stream as [p] left it,
    whatever [q] is; after a weak failure of [p] the state bits are cleared
    and the outcome is that of [q] on the stream so cleared, which is the
    outcome of [q] alone on the starting stream whenever that stream was in
    the good state and [p] changed nothing but the state bits.  The void
    specialisation behaves as the general one. *)
Theorem alt_outcome :
  (forall (T : Type) (p q : parser T) (s : istream),
     (forall t s1, p s = Return t s1 -> fail s1 = false ->
        parser_alt p q s = Return t s1) /\
     (forall t s1, p s = Return t s1 -> fail s1 = true ->
        parser_alt p q s = q (clear s1)) /\
     (forall t s1, p s = Return t s1 -> fail s1 = true ->
        good s = true -> gpos s1 = gpos s -> pos s1 = pos s -> lastc s1 = lastc s ->
        parser_alt p q s = q s) /\
     (forall s1, p s = ParserError s1 -> parser_alt p q s = ParserError s1)) /\
  (forall (p q : parser unit) (s : istream), parser_alt_void p q s = parser_alt p q s).
Proof.
  split.
  - intros T p q s. unfold parser_alt. repeat split.
    + intros t s1 Hp Hf. rewrite Hp. simpl. now rewrite Hf.
    + intros t s1 Hp Hf. rewrite Hp. simpl. now rewrite Hf.
    + intros t s1 Hp Hf Hg Hgp Hpos Hc. rewrite Hp. simpl. rewrite Hf. simpl.
      now rewrite (clear_same s s1).
    + intros s1 Hp. now rewrite Hp.
  - intros p q s. unfold parser_alt_void, parser_alt.
    destruct (p s) as [[] s1| |]; simpl; [|reflexivity|reflexivity].
    now destruct (fail s1).
Qed.

(** On ["abc"], [chr('x')] fails weakly and [chr('x') | chr('a')] is
    [chr('a')] on the fresh stream: ['a'], one character consumed. *)
Lemma alt_outcome_witness :
  parser_alt (chr (source_of "abc") "x") (chr (source_of "abc") "a") s_fresh
    = chr (source_of "abc") "a" s_fresh /\
  chr (source_of "abc") "a" s_fresh
    = Return "a"%char (mkStream false false 1 (mkPos 1 1 2) "a").
Proof.
  split; [|reflexivity].
  destruct alt_outcome as (Halt & _).
  destruct (Halt ascii (chr (source_of "abc") "x") (chr (source_of "abc") "a") s_fresh)
    as (_ & _ & Hweak & _).
  apply (Hweak char0 (mkStream true false 0 Pos0 char0)); reflexivity.
Defined.

(** C3 as stated fails on streams that are not in the good state, for the
    second branch runs on the stream with its state bits cleared.

    With [eofbit] latched (the stream [eof()] leaves at the end of input):
    [chr('a')] fails weakly; [chr('a') | try_(eof() >> f)] succeeds, because
    [s.clear()] also clears [eofbit] before the second branch runs;
    [try_(eof() >> f)] alone on the same stream fails, because its
    [s.tellg()] sets [failbit].

    With [failbit] set: on ["a"], [try_(chr('x'))] fails weakly and
    [try_(chr('x')) | chr('a')] succeeds with ['a'], where [chr('a')] alone
    throws on entry. *)
Lemma alt_on_stream_not_good :
  (chr (source_of "") "a" s_at_eof = Return char0 (mkStream true true 0 Pos0 char0) /\
   parser_alt (chr (source_of "") "a") (parser_try (source_of "") (eof_e (source_of "")))
     s_at_eof = Return "e"%char s_at_eof /\
   parser_try (source_of "") (eof_e (source_of "")) s_at_eof
     = Return char0 (mkStream true true 0 Pos0 char0)) /\
  (parser_try (source_of "a") (chr (source_of "a") "x") s_failed
     = Return char0 s_failed /\
   parser_alt (parser_try (source_of "a") (chr (source_of "a") "x"))
     (chr (source_of "a") "a") s_failed
     = Return "a"%char (mkStream false false 1 (mkPos 1 1 2) "a") /\
   chr (source_of "a") "a" s_failed = ParserError s_failed).
Proof. repeat split. Qed.

(** ** Repetition *)

Lemma many_loop_return {T : Type} (p : parser T) (fuel : nat) :
  forall c s c' s',
    many_loop p fuel c s = Return c' s' ->
    fail s' = false /\
    exists l s1 t s2,
      c' = c ++ l /\ iterates p s l s1 /\
      p s1 = Return t s2 /\ fail s2 = true /\ s' = clear s2.
Proof.
  induction fuel as [|fuel IH]; intros c s c' s' Hm; simpl in Hm; [discriminate|].
  destruct (p s) as [t s1| |] eqn:Hp; simpl in Hm; try discriminate.
  destruct (fail s1) eqn:Hf.
  - injection Hm as <- <-. split; [reflexivity|].
    exists [], s, t, s1. rewrite app_nil_r. repeat split; auto. constructor.
  - destruct (IH _ _ _ _ Hm) as (Hs' & l & s2 & t' & s3 & -> & Hit & Hp' & Hf' & ->).
    split; [assumption|].
    exists (t :: l), s2, t', s3. rewrite <- app_assoc. repeat split; auto.
    econstructor; eassumption.
Qed.

Lemma many_loop_throw {T : Type} (p : parser T) (fuel : nat) :
  forall c s s',
    many_loop p fuel c s = ParserError s' ->
    exists l s1, iterates p s l s1 /\ p s1 = ParserError s'.
Proof.
  induction fuel as [|fuel IH]; intros c s s' Hm; simpl in Hm; [discriminate|].
  destruct (p s) as [t s1|s1|] eqn:Hp; simpl in Hm; try discriminate.
  - destruct (fail s1) eqn:Hf; [discriminate|].
    destruct (IH _ _ _ Hm) as (l & s2 & Hit & Hp').
    exists (t :: l), s2. split; [econstructor; eassumption | assumption].
  - injection Hm as <-. exists [], s. split; [constructor | assumption].
Qed.

Lemma many_loop_S {T : Type} (p : parser T) (fuel : nat) (c : list T) (s : istream) :
  many_loop p (S fuel) c s
  = call (p s) (fun t s1 =>
      if fail s1 then Return c (clear s1) else many_loop p fuel (c ++ [t]) s1).
Proof. reflexivity. Qed.

Lemma many_loop_run {T : Type} (p : parser T) (s : istream) (l : list T) (s1 : istream) :
  iterates p s l s1 ->
  forall c,
    (forall t s2, p s1 = Return t s2 -> fail s2 = true ->
       many_loop p (S (List.length l)) c s = Return (c ++ l) (clear s2)) /\
    (forall s2, p s1 = ParserError s2 ->
       many_loop p (S (List.length l)) c s = ParserError s2).
Proof.
  induction 1 as [s|s t s1 l s2 Hp Hf Hit IH]; intros c.
  - split.
    + intros t s2 Hp Hf. simpl. rewrite Hp. simpl. rewrite Hf. now rewrite app_nil_r.
    + intros s2 Hp. simpl. now rewrite Hp.
  - destruct (IH (c ++ [t])) as (IHr & IHt).
    change (List.length (t :: l)) with (S (List.length l)).
    split.
    + intros t' s3 Hp' Hf'. rewrite many_loop_S, Hp. cbn [call].
      rewrite Hf. rewrite (IHr _ _ Hp' Hf'). now rewrite <- app_assoc.
    + intros s3 Hp'. rewrite many_loop_S, Hp. cbn [call].
      rewrite Hf. apply (IHt _ Hp').
Qed.

(** Over a productive parser the loop of [many] ends, by success or by the
    exception of [p]. *)
Lemma many_loop_ends {T : Type} (src : source) (p : parser T) :
  productive src p ->
  forall n s, (remaining src s < n)%nat ->
  forall c, exists fuel,
    succeeds (many_loop p fuel c s) \/ throws (many_loop p fuel c s).
Proof.
  intros Hprod n. induction n as [|n IH]; intros s Hn c; [lia|].
  specialize (Hprod s).
  destruct (p s) as [t s1|s1|] eqn:Hp; [| |contradiction].
  - destruct (fail s1) eqn:Hf.
    + exists 1%nat. left. exists c, (clear s1). simpl. rewrite Hp. simpl.
      rewrite Hf. split; reflexivity.
    + destruct (IH s1 ltac:(specialize (Hprod eq_refl); lia) (c ++ [t])) as (fuel & Hr).
      exists (S fuel). simpl. rewrite Hp. simpl. now rewrite Hf.
  - exists 1%nat. right. exists s1. simpl. now rewrite Hp.
Qed.

Lemma parser_match_productive (src : source) (m : ascii -> bool) :
  productive src (parser_match src m).
Proof.
  intros s. unfold parser_match. destruct (fail s) eqn:Hf; [exact I|].
  unfold peek, sentry. destruct (good s) eqn:Hg.
  - destruct (sgetc src s) as [a|] eqn:Ha; cbn [to_char].
    + destruct (m a); simpl; [|intros [=]].
      intros _. unfold ignore. rewrite (sentry_good s Hg), Ha.
      unfold remaining, sgetc in *. simpl.
      assert (gpos s < List.length (chars src))%nat
        by (apply nth_error_Some; congruence).
      lia.
    + destruct (m _); simpl; [|intros [=]].
      unfold ignore, sentry, good. simpl. rewrite andb_false_r. intros [=].
  - destruct (m _); simpl; intros [=].
Qed.

(** For instance [many(digit())] ends on every stream over every source. *)
Lemma many_digit_ends (src : source) (s : istream) :
  exists fuel,
    succeeds (parser_many fuel (digit src) s) \/ throws (parser_many fuel (digit src) s).
Proof.
  apply (many_loop_ends src (digit src) (parser_match_productive src isdigit)
           (S (remaining src s)) s).
  lia.
Qed.

Lemma many_void_as_many (p : parser unit) (fuel : nat) :
  forall c s,
    parser_many_void fuel p s = call (many_loop p fuel c s) (fun _ s' => Return tt s').
Proof.
  induction fuel as [|fuel IH]; intros c s; simpl; [reflexivity|].
  destruct (p s) as [t s1| |]; simpl; try reflexivity.
  destruct (fail s1); simpl; [reflexivity | apply IH].
Qed.

(** C4 (as amended).  [many(p)] never reports a failure by returning: when it
    returns, the flag is clear, the collection holds the results of the
    successful applications of [p] in order, and the run was ended by a weak
    failure of [p], whose state bits were cleared.  It never throws of its
    own, but a [ParserError] thrown by [p] (an error failure) is not caught:
    it leaves [many] as it left [p].  Both outcomes are reached with fuel for
    one application more than succeeded, and over a productive [p] one of
    them is always reached.  The void specialisation is the general one with
    the collection dropped. *)
Theorem many_outcome :
  (forall (T : Type) (p : parser T),
     (forall fuel s c s', parser_many fuel p s = Return c s' ->
        fail s' = false /\
        exists s1 t s2, iterates p s c s1 /\
          p s1 = Return t s2 /\ fail s2 = true /\ s' = clear s2) /\
     (forall fuel s s', parser_many fuel p s = ParserError s' ->
        exists c s1, iterates p s c s1 /\ p s1 = ParserError s') /\
     (forall s c s1, iterates p s c s1 ->
        (forall t s2, p s1 = Return t s2 -> fail s2 = true ->
           parser_many (S (List.length c)) p s = Return c (clear s2)) /\
        (forall s2, p s1 = ParserError s2 ->
           parser_many (S (List.length c)) p s = ParserError s2)) /\
     (forall src, productive src p -> forall s, exists fuel,
        succeeds (parser_many fuel p s) \/ throws (parser_many fuel p s))) /\
  (forall (p : parser unit) fuel s,
     parser_many_void fuel p s
     = call (parser_many fuel p s) (fun _ s' => Return tt s')).
Proof.
  split.
  - intros T p. unfold parser_many. repeat split.
    + now destruct (many_loop_return p fuel _ _ _ _ H).
    + destruct (many_loop_return p fuel _ _ _ _ H)
        as (_ & l & s1 & t & s2 & -> & Hit & Hp & Hf & ->).
      exists s1, t, s2. auto.
    + intros fuel s s' Hm. apply (many_loop_throw p fuel _ _ _ Hm).
    + intros t s2 Hp Hf.
      destruct (many_loop_run p s c s1 H []) as (Hr & _). apply (Hr _ _ Hp Hf).
    + intros s2 Hp.
      destruct (many_loop_run p s c s1 H []) as (_ & Ht). apply (Ht _ Hp).
    + intros src Hprod s.
      apply (many_loop_ends src p Hprod (S (remaining src s)) s). lia.
  - intros p fuel s. apply many_void_as_many.
Qed.

Lemma iterates_12 :
  iterates (digit (source_of "12")) s_fresh ["1"; "2"]%char
    (mkStream false false 2 (mkPos 2 1 3) "2").
Proof.
  apply iterates_cons with (s1 := mkStream false false 1 (mkPos 1 1 2) "1");
    [reflexivity | reflexivity |].
  apply iterates_cons with (s1 := mkStream false false 2 (mkPos 2 1 3) "2");
    [reflexivity | reflexivity |].
  apply iterates_nil.
Defined.

(** On ["12"], [many(digit())] collects both digits; the digit missing at the
    end of input ends the run and is cleared. *)
Lemma many_outcome_witness :
  parser_many 3 (digit (source_of "12")) s_fresh
  = Return ["1"; "2"]%char (mkStream false false 2 (mkPos 2 1 3) "2").
Proof.
  destruct many_outcome as (Hmany & _).
  destruct (Hmany ascii (digit (source_of "12"))) as (_ & _ & Hrun & _).
  destruct (Hrun _ _ _ iterates_12) as (Hret & _).
  exact (Hret char0 (mkStream true true 2 (mkPos 2 1 3) "2") eq_refl eq_refl).
Defined.

(** C4 as stated fails when the last application of [p] fails after
    consuming.  On ["aba"], [skip("ab")] succeeds once and, applied again,
    reads the second ['a'] and throws; [many(skip("ab"))] throws with it, and
    so does [many] of the string parser [chr('a') + chr('b')]. *)
Lemma many_lets_error_through :
  parser_str (source_of "aba") "ab" s_fresh
    = Return tt (mkStream false false 2 (mkPos 2 1 3) "b") /\
  parser_str (source_of "aba") "ab" (mkStream false false 2 (mkPos 2 1 3) "b")
    = ParserError (mkStream true true 3 (mkPos 3 1 4) "a") /\
  parser_many_void 2 (parser_str (source_of "aba") "ab") s_fresh
    = ParserError (mkStream true true 3 (mkPos 3 1 4) "a") /\
  parser_many 2
    (parser_cat (to_string_parser (chr (source_of "aba") "a"))
                (to_string_parser (chr (source_of "aba") "b"))) s_fresh
    = ParserError (mkStream true true 3 (mkPos 3 1 4) "a").
Proof. repeat split. Qed.

(** A [p] that succeeds without consuming keeps [many(p)] in its loop for
    ever: no amount of fuel lets [many(skip(""))] return. *)
Lemma many_of_empty_match_loops (src : source) (fuel : nat) (s : istream) :
  fail s = false -> parser_many_void fuel (parser_str src "") s = OutOfFuel.
Proof.
  intros Hf. induction fuel as [|fuel IH]; [reflexivity|].
  simpl. unfold parser_str at 1. rewrite Hf. simpl. rewrite Hf. simpl. exact IH.
Qed.

Lemma many1_loop_as_many {T : Type} (p : parser T) (f : T -> T -> T) (fuel : nat) :
  forall c l s,
    many1_loop p f fuel (fold_left f l c) s
    = call (many_loop p fuel l s) (fun l' s' => Return (fold_left f l' c) s').
Proof.
  induction fuel as [|fuel IH]; intros c l s; simpl; [reflexivity|].
  destruct (p s) as [t s1| |]; simpl; try reflexivity.
  destruct (fail s1); simpl; [reflexivity|].
  rewrite <- IH. now rewrite fold_left_app.
Qed.

(** C5 (as amended).  [many1(p, f)] reports a weak failure exactly when the
    first application of [p] fails weakly, returning what [p] returned with
    the stream as [p] left it; a [ParserError] of the first application
    passes through.  After a first success the rest is [many(p)] on the
    stream that success left, its results folded into the first one with
    [f]: later weak failures are cleared, and a [ParserError] thrown by a
    later application leaves [many1] as it leaves [many].  The void
    specialisation does the same with [many] for void parsers. *)
Theorem many1_outcome :
  (forall (T : Type) (p : parser T) (f : T -> T -> T) fuel s,
     (forall c s1, p s = Return c s1 -> fail s1 = true ->
        parser_many1 fuel p f s = Return c s1) /\
     (forall s1, p s = ParserError s1 -> parser_many1 fuel p f s = ParserError s1) /\
     (forall c s1, p s = Return c s1 -> fail s1 = false ->
        parser_many1 fuel p f s
        = call (parser_many fuel p s1) (fun l s' => Return (fold_left f l c) s')) /\
     (forall v s', parser_many1 fuel p f s = Return v s' -> fail s' = true ->
        p s = Return v s')) /\
  (forall (p : parser unit) fuel s,
     (forall u s1, p s = Return u s1 -> fail s1 = true ->
        parser_many1_void fuel p s = Return tt s1) /\
     (forall s1, p s = ParserError s1 -> parser_many1_void fuel p s = ParserError s1) /\
     (forall u s1, p s = Return u s1 -> fail s1 = false ->
        parser_many1_void fuel p s = parser_many_void fuel p s1)).
Proof.
  split.
  - intros T p f fuel s. unfold parser_many1, parser_many.
    split; [|split; [|split]].
    + intros c s1 Hp Hf. rewrite Hp. simpl. now rewrite Hf.
    + intros s1 Hp. now rewrite Hp.
    + intros c s1 Hp Hf. rewrite Hp. simpl. rewrite Hf.
      apply (many1_loop_as_many p f fuel c [] s1).
    + intros v s' Hm Hf'. destruct (p s) as [c s1| |] eqn:Hp; simpl in Hm;
        try discriminate.
      destruct (fail s1) eqn:Hf; [exact Hm|].
      pose proof (many1_loop_as_many p f fuel c [] s1) as Hloop.
      change (fold_left f [] c) with c in Hloop. rewrite Hloop in Hm.
      destruct (many_loop p fuel [] s1) as [l s2| |] eqn:Hl; simpl in Hm;
        try discriminate.
      injection Hm as <- <-.
      destruct (many_loop_return p fuel _ _ _ _ Hl) as (Hs2 & _). congruence.
  - intros p fuel s. unfold parser_many1_void.
    split; [|split].
    + intros u s1 Hp Hf. rewrite Hp. simpl. now rewrite Hf.
    + intros s1 Hp. now rewrite Hp.
    + intros u s1 Hp Hf. rewrite Hp. simpl. now rewrite Hf.
Qed.

(** On ["12"], [many1(digit(), later)] takes both digits and returns the
    later one; on ["x"] its first application fails weakly and so does it. *)
Lemma many1_outcome_witness :
  parser_many1 2 (digit (source_of "12")) later s_fresh
    = Return "2"%char (mkStream false false 2 (mkPos 2 1 3) "2") /\
  parser_many1 2 (digit (source_of "x")) later s_fresh
    = Return char0 (mkStream true false 0 Pos0 char0).
Proof.
  destruct many1_outcome as (Hmany1 & _).
  split.
  - destruct (Hmany1 ascii (digit (source_of "12")) later 2%nat s_fresh)
      as (_ & _ & Hsucc & _).
    rewrite (Hsucc "1"%char (mkStream false false 1 (mkPos 1 1 2) "1") eq_refl eq_refl).
    reflexivity.
  - destruct (Hmany1 ascii (digit (source_of "x")) later 2%nat s_fresh)
      as (Hweak & _).
    exact (Hweak char0 (mkStream true false 0 Pos0 char0) eq_refl eq_refl).
Defined.

(** C5 as stated fails when a later application of [p] fails after
    consuming: on ["aba"] the first application succeeds, yet [many1] throws
    [ParserError] instead of returning the accumulated result. *)
Lemma many1_fails_after_first_success :
  parser_str (source_of "aba") "ab" s_fresh
    = Return tt (mkStream false false 2 (mkPos 2 1 3) "b") /\
  parser_many1_void 2 (parser_str (source_of "aba") "ab") s_fresh
    = ParserError (mkStream true true 3 (mkPos 3 1 4) "a") /\
  parser_cat (to_string_parser (chr (source_of "aba") "a"))
             (to_string_parser (chr (source_of "aba") "b")) s_fresh
    = Return ["a"; "b"]%char (mkStream false false 2 (mkPos 2 1 3) "b") /\
  parser_many1 2
    (parser_cat (to_string_parser (chr (source_of "aba") "a"))
                (to_string_parser (chr (source_of "aba") "b")))
    (@app ascii) s_fresh
    = ParserError (mkStream true true 3 (mkPos 3 1 4) "a").
Proof. repeat split. Qed.

(** ** Separated lists *)

Lemma sep_by_loop_S {T U : Type} (p : parser T) (q : parser U) (_off : Z) (fuel : nat)
    (c : list T) (s : istream) :
  sep_by_loop p q _off (S fuel) c s
  = call (q s) (fun _ s1 =>
      if fail s1 then Return c (clear s1)
      else call (p s1) (fun t s2 =>
             RETURN_IF_FAIL _off default s2 (sep_by_loop p q _off fuel (c ++ [t]) s2))).
Proof. reflexivity. Qed.

Lemma RETURN_IF_FAIL_unfailed {T : Type} (_off : Z) (t : T) (s : istream) (rest : result T) :
  fail s = false -> RETURN_IF_FAIL _off t s rest = rest.
Proof. intros Hf. unfold RETURN_IF_FAIL. now rewrite Hf. Qed.

Lemma RETURN_IF_FAIL_moved {T : Type} (_off : Z) (t : T) (s : istream) (rest : result T) :
  fail s = true -> off (pos s) <> _off -> RETURN_IF_FAIL _off t s rest = ParserError s.
Proof.
  intros Hf Ho. unfold RETURN_IF_FAIL, tellg. rewrite Hf.
  replace (off (pos s) - _off =? 0) with false; [reflexivity|].
  symmetry. apply Z.eqb_neq. lia.
Qed.

Lemma RETURN_IF_FAIL_unmoved {T : Type} (_off : Z) (t : T) (s : istream) (rest : result T) :
  fail s = true -> off (pos s) = _off -> RETURN_IF_FAIL _off t s rest = Return t s.
Proof.
  intros Hf Ho. unfold RETURN_IF_FAIL, tellg. rewrite Hf.
  replace (off (pos s) - _off =? 0) with true; [reflexivity|].
  symmetry. apply Z.eqb_eq. lia.
Qed.

Lemma sep_by_loop_run {T U : Type} (p : parser T) (q : parser U) (_off : Z)
    (s : istream) (l : list T) (s2 : istream) :
  sep_iterates p q s l s2 ->
  forall c,
    (forall u s3, q s2 = Return u s3 -> fail s3 = true ->
       sep_by_loop p q _off (S (List.length l)) c s = Return (c ++ l) (clear s3)) /\
    (forall s3, q s2 = ParserError s3 ->
       sep_by_loop p q _off (S (List.length l)) c s = ParserError s3) /\
    (forall u s3, q s2 = Return u s3 -> fail s3 = false ->
       (forall t s4, p s3 = Return t s4 -> fail s4 = true -> off (pos s4) <> _off ->
          sep_by_loop p q _off (S (List.length l)) c s = ParserError s4) /\
       (forall t s4, p s3 = Return t s4 -> fail s4 = true -> off (pos s4) = _off ->
          sep_by_loop p q _off (S (List.length l)) c s = Return [] s4) /\
       (forall s4, p s3 = ParserError s4 ->
          sep_by_loop p q _off (S (List.length l)) c s = ParserError s4)).
Proof.
  induction 1 as [s|s u s1 t s2 l s3 Hq Hf1 Hp Hf2 Hit IH]; intros c.
  - cbn [List.length]. split; [|split].
    + intros u s3 Hq Hf. rewrite sep_by_loop_S, Hq. cbn [call]. rewrite Hf.
      now rewrite app_nil_r.
    + intros s3 Hq. rewrite sep_by_loop_S, Hq. reflexivity.
    + intros u s3 Hq Hf. split; [|split].
      * intros t s4 Hp Hf4 Ho. rewrite sep_by_loop_S, Hq. cbn [call]. rewrite Hf, Hp.
        cbn [call]. now apply RETURN_IF_FAIL_moved.
      * intros t s4 Hp Hf4 Ho. rewrite sep_by_loop_S, Hq. cbn [call]. rewrite Hf, Hp.
        cbn [call]. now apply RETURN_IF_FAIL_unmoved.
      * intros s4 Hp. rewrite sep_by_loop_S, Hq. cbn [call]. rewrite Hf, Hp.
        reflexivity.
  - change (List.length (t :: l)) with (S (List.length l)).
    assert (Hstep : sep_by_loop p q _off (S (S (List.length l))) c s
                    = sep_by_loop p q _off (S (List.length l)) (c ++ [t]) s2).
    { rewrite sep_by_loop_S, Hq. cbn [call]. rewrite Hf1, Hp. cbn [call].
      now apply RETURN_IF_FAIL_unfailed. }
    rewrite Hstep. destruct (IH (c ++ [t])) as (IH1 & IH2 & IH3).
    split; [|split].
    + intros u' s4 Hq' Hf'. rewrite (IH1 _ _ Hq' Hf'). now rewrite <- app_assoc.
    + exact IH2.
    + exact IH3.
Qed.

Lemma sep_by_loop_return {T U : Type} (p : parser T) (q : parser U) (_off : Z) (fuel : nat) :
  forall c s c' s',
    sep_by_loop p q _off fuel c s = Return c' s' -> fail s' = false ->
    exists l s2 u s3,
      sep_iterates p q s l s2 /\ q s2 = Return u s3 /\ fail s3 = true /\
      c' = c ++ l /\ s' = clear s3.
Proof.
  induction fuel as [|fuel IH]; intros c s c' s' Hm Hs'; [discriminate|].
  rewrite sep_by_loop_S in Hm.
  destruct (q s) as [u s1| |] eqn:Hq; cbn [call] in Hm; try discriminate.
  destruct (fail s1) eqn:Hf1.
  - injection Hm as <- <-. exists [], s, u, s1. rewrite app_nil_r.
    repeat split; auto. constructor.
  - destruct (p s1) as [t s2| |] eqn:Hp; cbn [call] in Hm; try discriminate.
    destruct (fail s2) eqn:Hf2.
    + unfold RETURN_IF_FAIL in Hm. rewrite Hf2 in Hm.
      destruct (negb (tellg s2 _off =? 0)); [discriminate|].
      injection Hm as <- <-. congruence.
    + rewrite RETURN_IF_FAIL_unfailed in Hm by assumption.
      destruct (IH _ _ _ _ Hm Hs') as (l & s3 & u' & s4 & Hit & Hq' & Hf' & -> & ->).
      exists (t :: l), s3, u', s4. rewrite <- app_assoc.
      repeat split; auto. econstructor; eassumption.
Qed.

(** C6 (as amended).  When the first application of [p] fails weakly,
    [sep_by(p, q)] succeeds with the empty collection on the stream [p] left,
    state bits cleared.  When a separator has parsed and the application of
    [p] after it fails, [sep_by] fails and never returns the elements
    collected so far: it throws [ParserError] when [p] threw or when the
    offset differs from the offset at [sep_by]'s entry, and otherwise, when
    nothing has been consumed since entry, it returns the empty default
    collection with the failure flag set, a weak failure.  A weak failure of
    the separator ends the list with success, and every successful return
    carries all elements parsed up to a first element or a separator that
    failed weakly. *)
Theorem sep_by_outcome {T U : Type} (p : parser T) (q : parser U) :
  (forall fuel s t s1, p s = Return t s1 -> fail s1 = true ->
     parser_sep_by fuel p q s = Return [] (clear s1) /\
     fail (clear s1) = false /\ gpos (clear s1) = gpos s1 /\ pos (clear s1) = pos s1) /\
  (forall s t0 s1 l s2 u s3,
     p s = Return t0 s1 -> fail s1 = false -> sep_iterates p q s1 l s2 ->
     q s2 = Return u s3 -> fail s3 = false ->
     (forall t s4, p s3 = Return t s4 -> fail s4 = true ->
        off (pos s4) <> off (pos s) ->
        parser_sep_by (S (List.length l)) p q s = ParserError s4) /\
     (forall t s4, p s3 = Return t s4 -> fail s4 = true ->
        off (pos s4) = off (pos s) ->
        parser_sep_by (S (List.length l)) p q s = Return [] s4) /\
     (forall s4, p s3 = ParserError s4 ->
        parser_sep_by (S (List.length l)) p q s = ParserError s4)) /\
  (forall s t0 s1 l s2 u s3,
     p s = Return t0 s1 -> fail s1 = false -> sep_iterates p q s1 l s2 ->
     q s2 = Return u s3 -> fail s3 = true ->
     parser_sep_by (S (List.length l)) p q s = Return (t0 :: l) (clear s3)) /\
  (forall fuel s c s', parser_sep_by fuel p q s = Return c s' -> fail s' = false ->
     (exists t s1, p s = Return t s1 /\ fail s1 = true /\ c = [] /\ s' = clear s1) \/
     (exists t0 s1 l s2 u s3,
        p s = Return t0 s1 /\ fail s1 = false /\ sep_iterates p q s1 l s2 /\
        q s2 = Return u s3 /\ fail s3 = true /\ c = t0 :: l /\ s' = clear s3)).
Proof.
  unfold parser_sep_by, MARK, tellg.
  split; [|split; [|split]].
  - intros fuel s t s1 Hp Hf. rewrite Hp. cbn [call]. rewrite Hf. repeat split.
  - intros s t0 s1 l s2 u s3 Hp Hf1 Hit Hq Hf3. rewrite Hp. cbn [call]. rewrite Hf1.
    destruct (sep_by_loop_run p q (off (pos s) - 0) s1 l s2 Hit [t0]) as (_ & _ & Hel).
    destruct (Hel u s3 Hq Hf3) as (Hmoved & Hunmoved & Hthrow).
    split; [|split].
    + intros t s4 Hp4 Hf4 Ho. apply (Hmoved t); auto. lia.
    + intros t s4 Hp4 Hf4 Ho. apply (Hunmoved t); auto. lia.
    + exact Hthrow.
  - intros s t0 s1 l s2 u s3 Hp Hf1 Hit Hq Hf3. rewrite Hp. cbn [call]. rewrite Hf1.
    destruct (sep_by_loop_run p q (off (pos s) - 0) s1 l s2 Hit [t0]) as (Hsep & _).
    apply (Hsep u s3 Hq Hf3).
  - intros fuel s c s' Hm Hs'.
    destruct (p s) as [t0 s1| |] eqn:Hp; cbn [call] in Hm; try discriminate.
    destruct (fail s1) eqn:Hf1.
    + injection Hm as <- <-. left. exists t0, s1. auto.
    + destruct (sep_by_loop_return p q _ fuel _ _ _ _ Hm Hs')
        as (l & s2 & u & s3 & Hit & Hq & Hf3 & -> & ->).
      right. exists t0, s1, l, s2, u, s3. auto 10.
Qed.

(** On ["1,"], the separator parses and no digit follows: [sep_by] throws,
    the ['1'] and the [','] consumed. *)
Lemma sep_by_outcome_witness :
  parser_sep_by 1 (digit (source_of "1,")) (skip_chr (source_of "1,") ",") s_fresh
  = ParserError (mkStream true true 2 (mkPos 2 1 3) ",").
Proof.
  destruct (sep_by_outcome (digit (source_of "1,")) (skip_chr (source_of "1,") ","))
    as (_ & Hel & _).
  destruct (Hel s_fresh "1"%char (mkStream false false 1 (mkPos 1 1 2) "1") []
              (mkStream false false 1 (mkPos 1 1 2) "1") tt
              (mkStream false false 2 (mkPos 2 1 3) ",")
              eq_refl eq_refl (sep_iterates_nil _ _ _) eq_refl eq_refl)
    as (Hmoved & _).
  apply (Hmoved char0); [reflexivity | reflexivity | discriminate].
Defined.

(** C6 as stated fails when neither element nor separator has consumed
    anything.  On the empty source, [try_(eof() >> f)] parses an element and
    latches [eofbit], the separator [skip("")] parses, and the next
    [try_(eof() >> f)] fails weakly (its [s.tellg()] sets [failbit]); the
    offset is still that of entry, so [sep_by] returns an empty collection
    with the flag set: a weak failure where the claim has an error
    failure. *)
Lemma sep_by_weak_after_separator :
  parser_try (source_of "") (eof_e (source_of "")) s_fresh = Return "e"%char s_at_eof /\
  parser_str (source_of "") "" s_at_eof = Return tt s_at_eof /\
  parser_try (source_of "") (eof_e (source_of "")) s_at_eof
    = Return char0 (mkStream true true 0 Pos0 char0) /\
  parser_sep_by 1 (parser_try (source_of "") (eof_e (source_of "")))
    (parser_str (source_of "") "") s_fresh
    = Return [] (mkStream true true 0 Pos0 char0).
Proof. repeat split. Qed.

(** ** Zero matches *)

(** C7 (as amended).  Where [p] fails at once without consuming (a normal
    return with the flag set, source position and position unchanged), the
    zero-or-more repetitions succeed on zero matches: [many(p)] and
    [sep_by(p, q)] return the empty collection, their void forms return, and
    the stream is left unfailed at the position of entry.  The one-or-more
    repetitions [many1] and [sep_by1] do not: on zero matches they fail as
    [p] failed, the flag left set. *)
Theorem zero_matches :
  (forall (T : Type) (D : Default T) (p : parser T) s t s1,
     p s = Return t s1 -> fail s1 = true -> gpos s1 = gpos s -> pos s1 = pos s ->
     (fail (clear s1) = false /\ gpos (clear s1) = gpos s /\ pos (clear s1) = pos s) /\
     (forall fuel, parser_many (S fuel) p s = Return [] (clear s1)) /\
     (forall (U : Type) (q : parser U) fuel,
        parser_sep_by fuel p q s = Return [] (clear s1)) /\
     (forall f fuel, parser_many1 fuel p f s = Return t s1) /\
     (forall (U : Type) (q : parser U) f fuel,
        parser_sep_by1 fuel p q f s = Return t s1)) /\
  (forall (p : parser unit) s t s1,
     p s = Return t s1 -> fail s1 = true -> gpos s1 = gpos s -> pos s1 = pos s ->
     (forall fuel, parser_many_void (S fuel) p s = Return tt (clear s1)) /\
     (forall (U : Type) (q : parser U) fuel,
        parser_sep_by_void fuel p q s = Return tt (clear s1)) /\
     (forall fuel, parser_many1_void fuel p s = Return tt s1)).
Proof.
  split.
  - intros T D p s t s1 Hp Hf Hg Hpos.
    split; [|split; [|split; [|split]]].
    + simpl. auto.
    + intros fuel. unfold parser_many. simpl. rewrite Hp. simpl. now rewrite Hf.
    + intros U q fuel. unfold parser_sep_by. rewrite Hp. simpl. now rewrite Hf.
    + intros f fuel. unfold parser_many1. rewrite Hp. simpl. now rewrite Hf.
    + intros U q f fuel. unfold parser_sep_by1. rewrite Hp. simpl. now rewrite Hf.
  - intros p s t s1 Hp Hf Hg Hpos.
    split; [|split].
    + intros fuel. simpl. rewrite Hp. simpl. now rewrite Hf.
    + intros U q fuel. unfold parser_sep_by_void. rewrite Hp. simpl. now rewrite Hf.
    + intros fuel. unfold parser_many1_void. rewrite Hp. simpl. now rewrite Hf.
Qed.

(** [many(digit())] on the empty input: the empty collection, nothing
    consumed, the stream as it was opened. *)
Lemma zero_matches_witness :
  parser_many 1 (digit (source_of "")) s_fresh = Return [] s_fresh.
Proof.
  destruct zero_matches as (Hz & _).
  destruct (Hz ascii _ (digit (source_of "")) s_fresh char0
              (mkStream true true 0 Pos0 char0) eq_refl eq_refl eq_refl eq_refl)
    as (_ & Hmany & _).
  exact (Hmany 0%nat).
Defined.

(** C7 as stated fails for the one-or-more repetitions: on the empty input
    [many1(digit(), f)] and [sep_by1(digit(), skip(','), f)] match zero
    times and return with the failure flag set. *)
Lemma many1_fails_on_zero_matches :
  parser_many1 1 (digit (source_of "")) later s_fresh
    = Return char0 (mkStream true true 0 Pos0 char0) /\
  parser_sep_by1 1 (digit (source_of "")) (skip_chr (source_of "") ",") later s_fresh
    = Return char0 (mkStream true true 0 Pos0 char0) /\
  fail (mkStream true true 0 Pos0 char0) = true.
Proof. repeat split. Qed.

(** ** Failures reported by return *)

(** C9, evaluated where the code departs from it.  At the end of input
    [s.peek()] returns [EOF], [char(EOF)] passes the [match] of [any_chr()]
    and of [none_of(",")], [s.ignore()] sets [failbit] behind its sentry and
    [update_pos] still counts a character.  On a non-failed stream over a
    seekable source the call returns, the failure flag set and the offset one
    past its value on entry: on the empty input from the fresh stream, and on
    ["a"] once the ['a'] has been read. *)
Theorem match_at_end_of_input_moves_position :
  seekable (source_of "") = true /\ fail s_fresh = false /\
  any_chr (source_of "") s_fresh
    = Return "255"%char (mkStream true true 0 (mkPos 1 1 2) char0) /\
  none_of (source_of "") "," s_fresh
    = Return "255"%char (mkStream true true 0 (mkPos 1 1 2) char0) /\
  any_chr (source_of "a") s_fresh
    = Return "a"%char (mkStream false false 1 (mkPos 1 1 2) "a") /\
  any_chr (source_of "a") (mkStream false false 1 (mkPos 1 1 2) "a")
    = Return "255"%char (mkStream true true 1 (mkPos 2 1 3) "a") /\
  off (pos (mkStream true true 1 (mkPos 2 1 3) "a"))
    <> off (pos (mkStream false false 1 (mkPos 1 1 2) "a")).
Proof. repeat split. discriminate. Qed.

(** ** The invariant over the parsers of the library *)

Lemma adv_refl (s : istream) : adv s s.
Proof. now left. Qed.

Lemma adv_trans (s1 s2 s3 : istream) : adv s1 s2 -> adv s2 s3 -> adv s1 s3.
Proof.
  unfold adv. intros [E1|L1] [E2|L2]; [left; congruence | right | right | right];
    try rewrite E2; try rewrite <- E1; auto; lia.
Qed.

Lemma adv_same_off (s s' : istream) :
  adv s s' -> off (pos s') = off (pos s) -> pos s' = pos s.
Proof. intros [E|L] Ho; [assumption | lia]. Qed.

Lemma adv_at (s s1 s' : istream) : adv s s1 -> pos s' = pos s1 -> adv s s'.
Proof. unfold adv. intros H E. now rewrite E. Qed.

Lemma update_off (p : Pos) (c : ascii) : off (update p c) = off p + 1.
Proof.
  unfold update. destruct (Ascii.eqb c tab); [|destruct (Ascii.eqb c newline)]; reflexivity.
Qed.

Lemma peek_pos (src : source) (s : istream) : pos (snd (peek src s)) = pos s.
Proof.
  unfold peek, sentry. destruct (good s); [|reflexivity].
  now destruct (sgetc src s).
Qed.

Lemma ignore_pos (src : source) (s : istream) : pos (ignore src s) = pos s.
Proof.
  unfold ignore, sentry. destruct (good s); [|reflexivity].
  now destruct (sgetc src s).
Qed.

Lemma adv_consume (src : source) (s s1 : istream) :
  adv s s1 -> adv s (update_pos (ignore src s1)).
Proof.
  intros H. apply adv_trans with s1; [assumption|].
  right. unfold update_pos. simpl. rewrite update_off, ignore_pos. lia.
Qed.

Lemma post_RETURN {T : Type} (Q : istream -> Prop) (_off : Z) (t : T) (s : istream) :
  Q s -> post Q (RETURN _off t s).
Proof. intros H. unfold RETURN. now destruct (failed_since _off s). Qed.

Lemma post_RETURN_IF_FAIL {T : Type} (Q : istream -> Prop) (_off : Z) (t : T)
    (s : istream) (rest : result T) :
  Q s -> post Q rest -> post Q (RETURN_IF_FAIL _off t s rest).
Proof.
  intros H Hrest. unfold RETURN_IF_FAIL.
  destruct (fail s); [|assumption]. now destruct (negb _).
Qed.

Lemma peek_gpos (src : source) (s : istream) : gpos (snd (peek src s)) = gpos s.
Proof.
  unfold peek, sentry. destruct (good s); [|reflexivity].
  now destruct (sgetc src s).
Qed.

Lemma peek_at_end (src : source) (s : istream) :
  at_end src s -> fst (peek src s) = EOF.
Proof.
  unfold at_end, peek, sentry. intros He. destruct (good s); [|reflexivity].
  now rewrite He.
Qed.

Lemma istream_tellg_pos (src : source) (s : istream) :
  pos (snd (istream_tellg src s)) = pos s.
Proof. unfold istream_tellg, sentry. now destruct (good s). Qed.

Lemma istream_tellg_gpos (src : source) (s : istream) :
  gpos (snd (istream_tellg src s)) = gpos s.
Proof. unfold istream_tellg, sentry. now destruct (good s). Qed.

Lemma istream_tellg_Some (src : source) (s : istream) (g : nat) :
  fst (istream_tellg src s) = Some g -> seekable src = true /\ g = gpos s.
Proof.
  unfold istream_tellg, sentry. destruct (good s); simpl; [|discriminate].
  destruct (seekable src); [|discriminate]. intros [= <-]. auto.
Qed.

(** *** Paths through the combinators

    The combinators only chain the calls of their sub-parsers, clear or set
    state bits, and (in [try_]) put the stream back where it was.  So a
    transitive relation between the stream of entry and the stream left that
    holds of two streams at the same place, and that the leaves follow, is
    followed by every parser built from them. *)
Section Paths.

Variable eof_safe chains : bool.
Variable src : source.
Variable A : istream -> Prop.
Variable R : istream -> istream -> Prop.

Hypothesis R_same : forall s s', pos s' = pos s -> gpos s' = gpos s -> R s s'.
Hypothesis R_trans : forall s1 s2 s3, R s1 s2 -> R s2 s3 -> R s1 s3.
Hypothesis A_R : forall s s', A s -> R s s' -> A s'.

Hypothesis follows_match :
  forall m, (eof_safe = true -> m (to_char EOF) = false) ->
    follows A R (parser_match src m).
Hypothesis follows_eof : follows A R (parser_eof src).
Hypothesis follows_str :
  forall t, (eof_safe = true -> strchr t (to_char EOF) = false) ->
    follows A R (parser_str src t).

Lemma R_refl (s : istream) : R s s.
Proof. now apply R_same. Qed.

Lemma R_at (s s1 s' : istream) :
  R s s1 -> pos s' = pos s1 -> gpos s' = gpos s1 -> R s s'.
Proof. intros H Hp Hg. apply R_trans with s1; [assumption | now apply R_same]. Qed.

Lemma follows_from {T : Type} (p : parser T) (s0 s : istream) :
  follows A R p -> A s0 -> R s0 s -> post (R s0) (p s).
Proof.
  intros Hp HI H. specialize (Hp s (A_R s0 s HI H)).
  destruct (p s); simpl in *; eauto.
Qed.

Ltac sub_call Hp :=
  lazymatch goal with
  | HI : A ?s0, H0 : R ?s0 ?s |- post (R ?s0) (call (?p ?s) _) =>
      let H := fresh "Hpath" in
      pose proof (follows_from p s0 s Hp HI H0) as H;
      destruct (p s) as [? ?|?|]; cbn [call post] in H |- *;
      [ | exact H | exact I]
  end.

Ltac path_solve :=
  first [ assumption | exact I | apply R_refl
        | eapply R_at; [eassumption | reflexivity | reflexivity] ].

Ltac enter s HI := intros s HI; pose proof (R_refl s).

Lemma follows_skip {T : Type} (p : parser T) :
  follows A R p -> follows A R (parser_skip p).
Proof. intros Hp. enter s HI. unfold parser_skip. sub_call Hp. exact Hpath. Qed.

Lemma follows_map {U T : Type} `{Default T} (p : parser U) (f : U -> T) :
  follows A R p -> follows A R (parser_map p f).
Proof.
  intros Hp. enter s HI. unfold parser_map. sub_call Hp. now destruct (fail _).
Qed.

Lemma follows_chain {U T : Type} `{Default T} (p : parser U) (f : U -> parser T) :
  follows A R p -> (forall u, follows A R (f u)) -> follows A R (parser_chain p f).
Proof.
  intros Hp Hf. enter s HI. unfold parser_chain. sub_call Hp.
  destruct (fail _); [assumption|]. now apply follows_from.
Qed.

Lemma follows_cat (p q : parser (list ascii)) :
  follows A R p -> follows A R q -> follows A R (parser_cat p q).
Proof.
  intros Hp Hq. enter s HI. unfold parser_cat. sub_call Hp.
  destruct (fail _); simpl; [assumption|].
  sub_call Hq. now apply post_RETURN.
Qed.

Lemma many_loop_path {T : Type} (p : parser T) (fuel : nat) :
  follows A R p ->
  forall c s0 s, A s0 -> R s0 s -> post (R s0) (many_loop p fuel c s).
Proof.
  intros Hp. induction fuel as [|fuel IH]; intros c s0 s HI H; simpl; [exact I|].
  sub_call Hp. destruct (fail _); simpl; [path_solve | now apply IH].
Qed.

Lemma follows_many {T : Type} (fuel : nat) (p : parser T) :
  follows A R p -> follows A R (parser_many fuel p).
Proof. intros Hp s HI. apply many_loop_path; [assumption | assumption | apply R_refl]. Qed.

Lemma many_void_path (p : parser unit) (fuel : nat) :
  follows A R p ->
  forall s0 s, A s0 -> R s0 s -> post (R s0) (parser_many_void fuel p s).
Proof.
  intros Hp. induction fuel as [|fuel IH]; intros s0 s HI H; simpl; [exact I|].
  sub_call Hp. destruct (fail _); simpl; [path_solve | now apply IH].
Qed.

Lemma follows_many_void (fuel : nat) (p : parser unit) :
  follows A R p -> follows A R (parser_many_void fuel p).
Proof. intros Hp s HI. apply many_void_path; [assumption | assumption | apply R_refl]. Qed.

Lemma many1_loop_path {T : Type} (p : parser T) (f : T -> T -> T) (fuel : nat) :
  follows A R p ->
  forall c s0 s, A s0 -> R s0 s -> post (R s0) (many1_loop p f fuel c s).
Proof.
  intros Hp. induction fuel as [|fuel IH]; intros c s0 s HI H; simpl; [exact I|].
  sub_call Hp. destruct (fail _); simpl; [path_solve | now apply IH].
Qed.

Lemma follows_many1 {T : Type} (fuel : nat) (p : parser T) (f : T -> T -> T) :
  follows A R p -> follows A R (parser_many1 fuel p f).
Proof.
  intros Hp. enter s HI. unfold parser_many1. sub_call Hp.
  destruct (fail _); simpl; [path_solve | now apply many1_loop_path].
Qed.

Lemma follows_many1_void (fuel : nat) (p : parser unit) :
  follows A R p -> follows A R (parser_many1_void fuel p).
Proof.
  intros Hp. enter s HI. unfold parser_many1_void. sub_call Hp.
  destruct (fail _); simpl; [path_solve | now apply many_void_path].
Qed.

Lemma follows_seq {U T : Type} `{Default T} (p : parser U) (q : parser T) :
  follows A R p -> follows A R q -> follows A R (parser_seq p q).
Proof.
  intros Hp Hq. enter s HI. unfold parser_seq. sub_call Hp.
  destruct (fail _); simpl; [path_solve|].
  sub_call Hq. now apply post_RETURN.
Qed.

Lemma follows_seq_void {T : Type} (p : parser T) (q : parser unit) :
  follows A R p -> follows A R q -> follows A R (parser_seq_void p q).
Proof.
  intros Hp Hq. enter s HI. unfold parser_seq_void. sub_call Hp.
  destruct (fail _); simpl; [path_solve|].
  sub_call Hq. now apply post_RETURN.
Qed.

Lemma sep_by_loop_path {T U : Type} (p : parser T) (q : parser U) (_off : Z) (fuel : nat) :
  follows A R p -> follows A R q ->
  forall c s0 s, A s0 -> R s0 s -> post (R s0) (sep_by_loop p q _off fuel c s).
Proof.
  intros Hp Hq. induction fuel as [|fuel IH]; intros c s0 s HI H; [exact I|].
  rewrite sep_by_loop_S. sub_call Hq. destruct (fail _); simpl; [path_solve|].
  sub_call Hp. apply post_RETURN_IF_FAIL; [assumption | now apply IH].
Qed.

Lemma follows_sep_by {T U : Type} (fuel : nat) (p : parser T) (q : parser U) :
  follows A R p -> follows A R q -> follows A R (parser_sep_by fuel p q).
Proof.
  intros Hp Hq. enter s HI. unfold parser_sep_by. sub_call Hp.
  destruct (fail _); simpl; [path_solve | now apply sep_by_loop_path].
Qed.

Lemma sep_by_void_loop_path {U : Type} (p : parser unit) (q : parser U) (_off : Z)
    (fuel : nat) :
  follows A R p -> follows A R q ->
  forall s0 s, A s0 -> R s0 s -> post (R s0) (sep_by_void_loop p q _off fuel s).
Proof.
  intros Hp Hq. induction fuel as [|fuel IH]; intros s0 s HI H; [exact I|].
  cbn [sep_by_void_loop]. sub_call Hq. destruct (fail _); simpl; [path_solve|].
  sub_call Hp. apply post_RETURN_IF_FAIL; [assumption | now apply IH].
Qed.

Lemma follows_sep_by_void {U : Type} (fuel : nat) (p : parser unit) (q : parser U) :
  follows A R p -> follows A R q -> follows A R (parser_sep_by_void fuel p q).
Proof.
  intros Hp Hq. enter s HI. unfold parser_sep_by_void. sub_call Hp.
  destruct (fail _); simpl; [path_solve | now apply sep_by_void_loop_path].
Qed.

Lemma sep_by1_loop_path {T U : Type} `{Default T} (p : parser T) (q : parser U)
    (f : T -> T -> T) (_off : Z) (fuel : nat) :
  follows A R p -> follows A R q ->
  forall c s0 s, A s0 -> R s0 s -> post (R s0) (sep_by1_loop p q f _off fuel c s).
Proof.
  intros Hp Hq. induction fuel as [|fuel IH]; intros c s0 s HI H0; [exact I|].
  cbn [sep_by1_loop]. sub_call Hq. destruct (fail _); simpl; [path_solve|].
  sub_call Hp. apply post_RETURN_IF_FAIL; [assumption | now apply IH].
Qed.

Lemma follows_sep_by1 {T U : Type} `{Default T} (fuel : nat) (p : parser T)
    (q : parser U) (f : T -> T -> T) :
  follows A R p -> follows A R q -> follows A R (parser_sep_by1 fuel p q f).
Proof.
  intros Hp Hq. enter s HI. unfold parser_sep_by1. sub_call Hp.
  destruct (fail _); simpl; [path_solve | now apply sep_by1_loop_path].
Qed.

Lemma follows_alt {T : Type} (p q : parser T) :
  follows A R p -> follows A R q -> follows A R (parser_alt p q).
Proof.
  intros Hp Hq. enter s HI. unfold parser_alt. sub_call Hp.
  destruct (fail _); simpl; [|path_solve].
  apply follows_from; [assumption | assumption | path_solve].
Qed.

Lemma follows_alt_void (p q : parser unit) :
  follows A R p -> follows A R q -> follows A R (parser_alt_void p q).
Proof.
  intros Hp Hq. enter s HI. unfold parser_alt_void. sub_call Hp.
  destruct (fail _); simpl; [|path_solve].
  apply follows_from; [assumption | assumption | path_solve].
Qed.

Lemma follows_try {T : Type} `{Default T} (p : parser T) :
  follows A R p -> follows A R (parser_try src p).
Proof.
  intros Hp s HI. unfold parser_try.
  pose proof (istream_tellg_pos src s) as Htp.
  pose proof (istream_tellg_gpos src s) as Htg.
  pose proof (istream_tellg_Some src s) as Hsome.
  destruct (istream_tellg src s) as [tg s0]. simpl in Htp, Htg, Hsome.
  assert (H0 : R s s0) by now apply R_same.
  pose proof (follows_from p s s0 Hp HI H0) as Hpath.
  destruct (p s0) as [t s1|s1|]; simpl in *; [assumption| |exact I].
  destruct tg as [g|]; simpl; [|assumption].
  destruct (Hsome g eq_refl) as (Hs & ->).
  apply R_same; [reflexivity|]. simpl. now rewrite (seekg_clear src _ s1 Hs).
Qed.

Lemma built_follows {T : Type} (p : parser T) :
  built_parser eof_safe chains src p -> follows A R p.
Proof.
  induction 1;
    eauto using follows_skip, follows_map, follows_chain, follows_cat, follows_many,
      follows_many_void,
      follows_many1, follows_many1_void, follows_seq, follows_seq_void,
      follows_sep_by, follows_sep_by_void, follows_sep_by1, follows_alt,
      follows_alt_void, follows_try.
Qed.

End Paths.

(** *** Every parser moves forward or not at all *)

Ltac adv_solve :=
  first [ assumption | exact I | apply adv_refl
        | eapply adv_at; [eassumption | reflexivity] ].

Section Advancing.
Variable src : source.

Lemma advancing_match (m : ascii -> bool) : advancing (parser_match src m).
Proof.
  intros s. unfold parser_match. destruct (fail s); [apply adv_refl|].
  pose proof (peek_pos src s) as Hpk. destruct (peek src s) as [i s1]. simpl in Hpk.
  destruct (m (to_char i)); simpl.
  - apply adv_consume. now left.
  - now left.
Qed.

Lemma advancing_eof : advancing (parser_eof src).
Proof.
  intros s. unfold parser_eof. destruct (fail s); [apply adv_refl|].
  destruct (eof s); [apply adv_refl|].
  pose proof (peek_pos src s) as Hpk. destruct (peek src s) as [i s1]. simpl in Hpk.
  destruct i; simpl; now left.
Qed.

Lemma parser_str_loop_adv (_off : Z) (t : string) :
  forall s0 s, adv s0 s -> post (adv s0) (parser_str_loop src _off t s).
Proof.
  induction t as [|a t IH]; intros s0 s H; simpl; [assumption|].
  destruct (Ascii.eqb a char0); [assumption|].
  pose proof (peek_pos src s) as Hpk. destruct (peek src s) as [i s1]. simpl in Hpk.
  destruct (int_eqb i a).
  - apply IH. apply adv_consume. now apply adv_at with s.
  - apply post_RETURN. now apply adv_at with s.
Qed.

Lemma advancing_str (t : string) : advancing (parser_str src t).
Proof.
  intros s. unfold parser_str. destruct (fail s); [apply adv_refl|].
  apply parser_str_loop_adv, adv_refl.
Qed.

End Advancing.

Lemma advancing_from {T : Type} (p : parser T) (s0 s : istream) :
  advancing p -> adv s0 s -> post (adv s0) (p s).
Proof.
  intros Hp H. specialize (Hp s).
  destruct (p s); simpl in *; eauto using adv_trans.
Qed.

(** Every parser built from the leaves and combinators leaves the position
    where it was or at a greater offset, however it ends. *)
Lemma built_parser_advancing (eof_safe chains : bool) (src : source) {T : Type}
    (p : parser T) :
  built_parser eof_safe chains src p -> advancing p.
Proof.
  intros Hlib s.
  apply (built_follows eof_safe chains src (fun _ => True) adv) with (p := p); auto.
  - intros s1 s2 Hp _. now left.
  - apply adv_trans.
  - intros m _ s1 _. apply advancing_match.
  - intros s1 _. apply advancing_eof.
  - intros t _ s1 _. apply advancing_str.
Qed.

(** *** The comparison of [skip] of a literal *)

Lemma nat_of_ascii_inj (a b : ascii) : nat_of_ascii a = nat_of_ascii b -> a = b.
Proof.
  intros E. rewrite <- (ascii_nat_embedding a), <- (ascii_nat_embedding b).
  now rewrite E.
Qed.

(** Against a character read the literal's character matches when it is the
    same and not negative. *)
Lemma int_eqb_char (b a : ascii) :
  int_eqb (Some b) a = Ascii.eqb b a && seven_bit a.
Proof.
  unfold int_eqb, int_value, char_to_int, seven_bit.
  pose proof (nat_ascii_bounded a) as Ba. pose proof (nat_ascii_bounded b) as Bb.
  destruct (Nat.ltb_spec (nat_of_ascii a) 128) as [Hlt|Hge].
  - replace (Z.of_nat (nat_of_ascii a) <? 128) with true
      by (symmetry; apply Z.ltb_lt; lia).
    rewrite andb_true_r. destruct (Ascii.eqb_spec b a) as [->|Hne].
    + apply Z.eqb_refl.
    + apply Z.eqb_neq. intros E. apply Hne, nat_of_ascii_inj. lia.
  - replace (Z.of_nat (nat_of_ascii a) <? 128) with false
      by (symmetry; apply Z.ltb_ge; lia).
    rewrite andb_false_r. apply Z.eqb_neq. lia.
Qed.

(** Against [EOF] it matches when it is the byte 255. *)
Lemma int_eqb_EOF (a : ascii) : int_eqb EOF a = Ascii.eqb a (to_char EOF).
Proof. destruct a as [[] [] [] [] [] [] [] []]; reflexivity. Qed.

Lemma seven_bit_not_EOF (a : ascii) :
  seven_bit a = true -> Ascii.eqb a (to_char EOF) = false.
Proof.
  destruct a as [[] [] [] [] [] [] [] []]; intros H;
    first [reflexivity | vm_compute in H; discriminate H].
Qed.

(** A literal that holds no [char(EOF)] before its terminator: neither does
    what follows its first character. *)
Lemma strchr_tail (a : ascii) (t : string) :
  strchr (String a t) (to_char EOF) = false -> Ascii.eqb a char0 = false ->
  Ascii.eqb a (to_char EOF) = false /\ strchr t (to_char EOF) = false.
Proof.
  cbn [strchr]. intros H Ha. rewrite Ha in H.
  destruct (Ascii.eqb a (to_char EOF)); [discriminate H | now split].
Qed.

(** *** At the end of input nothing moves *)

Section AtEnd.
Variable chains : bool.
Variable src : source.

Lemma stays_match (m : ascii -> bool) :
  m (to_char EOF) = false -> follows (at_end src) same_place (parser_match src m).
Proof.
  intros Hm s He. unfold parser_match. destruct (fail s); [now split|].
  pose proof (peek_pos src s) as Hpp. pose proof (peek_gpos src s) as Hpg.
  pose proof (peek_at_end src s He) as Hi.
  destruct (peek src s) as [i s1]. simpl in Hpp, Hpg, Hi. subst i. rewrite Hm.
  simpl. now split.
Qed.

Lemma stays_eof : follows (at_end src) same_place (parser_eof src).
Proof.
  intros s He. unfold parser_eof. destruct (fail s); [now split|].
  destruct (eof s); [now split|].
  pose proof (peek_pos src s) as Hpp. pose proof (peek_gpos src s) as Hpg.
  destruct (peek src s) as [i s1]. simpl in *. destruct i; simpl; now split.
Qed.

Lemma stays_str (t : string) :
  strchr t (to_char EOF) = false -> follows (at_end src) same_place (parser_str src t).
Proof.
  intros Ht s He. unfold parser_str. destruct (fail s); [now split|].
  destruct t as [|a t]; cbn [parser_str_loop post]; [now split|].
  destruct (Ascii.eqb a char0) eqn:Ha; [now split|].
  destruct (strchr_tail a t Ht Ha) as (Hn & _).
  pose proof (peek_pos src s) as Hpp. pose proof (peek_gpos src s) as Hpg.
  pose proof (peek_at_end src s He) as Hi.
  destruct (peek src s) as [i s1]. cbn [fst snd] in *. subst i.
  rewrite int_eqb_EOF, Hn. apply post_RETURN. now split.
Qed.

(** At the end of input a parser that does not take the end of input for a
    character reads nothing and moves nothing, however it ends. *)
Lemma built_parser_stays_at_end {T : Type} (p : parser T) :
  built_parser true chains src p -> follows (at_end src) same_place p.
Proof.
  apply (built_follows true chains src (at_end src) same_place).
  - intros s s' Hp Hg. now split.
  - intros s1 s2 s3 [Hp1 Hg1] [Hp2 Hg2]. split; congruence.
  - unfold at_end, sgetc. intros s s' He [_ Hg]. now rewrite Hg.
  - intros m Hm. apply stays_match, Hm, eq_refl.
  - apply stays_eof.
  - intros t Ht. apply stays_str, Ht, eq_refl.
Qed.

End AtEnd.

(** *** Returns with the flag set *)

Lemma good_unfailed (s : istream) : good s = true -> fail s = false.
Proof.
  unfold good, fail. intros H. apply andb_true_iff in H as [H _].
  now apply negb_true_iff in H.
Qed.

Lemma good_clear (s : istream) : good (clear s) = true.
Proof. reflexivity. Qed.

Lemma RETURN_weak {T : Type} (s0 : istream) (t : T) (s : istream) :
  adv s0 s -> post_return (weak_at s0) (RETURN (MARK s0) t s).
Proof.
  intros H. unfold RETURN, failed_since, MARK, tellg.
  destruct (fail s) eqn:Hf; simpl; [|intros Hf'; congruence].
  destruct (off (pos s) - (off (pos s0) - 0) =? 0) eqn:Ho; simpl; [|exact I].
  intros _. apply adv_same_off; [assumption|]. apply Z.eqb_eq in Ho. lia.
Qed.

Lemma RETURN_IF_FAIL_weak {T : Type} (s0 : istream) (t : T) (s : istream)
    (rest : result T) :
  adv s0 s -> post_return (weak_at s0) rest ->
  post_return (weak_at s0) (RETURN_IF_FAIL (MARK s0) t s rest).
Proof.
  intros H Hrest. unfold RETURN_IF_FAIL, MARK, tellg.
  destruct (fail s) eqn:Hf; [|assumption].
  destruct (off (pos s) - (off (pos s0) - 0) =? 0) eqn:Ho; simpl; [|exact I].
  intros _. apply adv_same_off; [assumption|]. apply Z.eqb_eq in Ho. lia.
Qed.

Lemma weak_at_unfailed (s0 s : istream) : fail s = false -> weak_at s0 s.
Proof. unfold weak_at. congruence. Qed.

Lemma peek_good (src : source) (s : istream) :
  good s = true ->
  peek src s = match sgetc src s with
               | Some a => (Some a, s)
               | None => (EOF, setstate_eofbit s)
               end.
Proof. intros Hg. unfold peek. now rewrite (sentry_good s Hg). Qed.

Lemma consume_good (src : source) (s : istream) (a : ascii) :
  good s = true -> sgetc src s = Some a ->
  good (update_pos (ignore src s)) = true.
Proof.
  intros Hg Ha. unfold ignore. rewrite (sentry_good s Hg), Ha.
  unfold good in *. exact Hg.
Qed.

Section ReturnsWeak.
Variable src : source.

Lemma returns_weak_match (m : ascii -> bool) :
  m (to_char EOF) = false -> returns_weak (parser_match src m).
Proof.
  intros Hm s Hg. unfold parser_match. rewrite (good_unfailed s Hg), (peek_good src s Hg).
  destruct (sgetc src s) as [a|] eqn:Ha; cbn [to_char].
  - destruct (m a); simpl.
    + apply weak_at_unfailed, good_unfailed. now apply consume_good with a.
    + now intros _.
  - unfold EOF in *. cbn [to_char] in *. rewrite Hm. simpl. now intros _.
Qed.

Lemma returns_weak_eof : returns_weak (parser_eof src).
Proof.
  intros s Hg. unfold parser_eof. rewrite (good_unfailed s Hg).
  destruct (eof s); simpl; [now intros _|].
  rewrite (peek_good src s Hg). destruct (sgetc src s); simpl; now intros _.
Qed.

Lemma parser_str_loop_weak (s0 : istream) (t : string) :
  strchr t (to_char EOF) = false ->
  forall s, good s = true -> adv s0 s ->
    post_return (weak_at s0) (parser_str_loop src (MARK s0) t s).
Proof.
  induction t as [|a t IH]; intros Ht s Hg H; cbn [parser_str_loop].
  - apply weak_at_unfailed, good_unfailed, Hg.
  - destruct (Ascii.eqb a char0) eqn:Ha; [apply weak_at_unfailed, good_unfailed, Hg|].
    destruct (strchr_tail a t Ht Ha) as (Hn & Ht').
    rewrite (peek_good src s Hg). destruct (sgetc src s) as [b|] eqn:Hb; cbv beta iota.
    + destruct (int_eqb (Some b) a).
      * apply IH; [assumption | now apply consume_good with b | now apply adv_consume].
      * apply RETURN_weak. adv_solve.
    + rewrite (int_eqb_EOF a), Hn. apply RETURN_weak. adv_solve.
Qed.

Lemma returns_weak_str (t : string) :
  strchr t (to_char EOF) = false -> returns_weak (parser_str src t).
Proof.
  intros Ht s Hg. unfold parser_str. rewrite (good_unfailed s Hg).
  apply parser_str_loop_weak; [assumption | assumption | apply adv_refl].
Qed.

Lemma returns_weak_try {T : Type} `{Default T} (p : parser T) :
  seekable src = true -> returns_weak p -> returns_weak (parser_try src p).
Proof.
  intros Hs Hp s Hg. unfold parser_try. rewrite (istream_tellg_good src s Hs Hg).
  specialize (Hp s Hg). destruct (p s) as [t s1|s1|]; simpl in *; [assumption| |exact I].
  now intros _.
Qed.

End ReturnsWeak.

Lemma returns_weak_skip {T : Type} (p : parser T) :
  returns_weak p -> returns_weak (parser_skip p).
Proof.
  intros Hp s Hg. unfold parser_skip. specialize (Hp s Hg).
  destruct (p s); simpl in *; auto.
Qed.

Lemma returns_weak_map {U T : Type} `{Default T} (p : parser U) (f : U -> T) :
  returns_weak p -> returns_weak (parser_map p f).
Proof.
  intros Hp s Hg. unfold parser_map. specialize (Hp s Hg).
  destruct (p s) as [u s1| |]; simpl in *; auto. now destruct (fail s1).
Qed.

(** The second half of a sequence: [q] runs on the stream a successful [p]
    left and [RETURN] decides. *)
Lemma second_weak {U T : Type} (q : parser U) (s s1 : istream) (k : U -> T) :
  advancing q -> adv s s1 ->
  post_return (weak_at s) (call (q s1) (fun u s2 => RETURN (MARK s) (k u) s2)).
Proof.
  intros Hq H. pose proof (advancing_from q s s1 Hq H) as Hadv.
  destruct (q s1) as [u s2| |]; simpl in *; auto. now apply RETURN_weak.
Qed.

Lemma returns_weak_cat (p q : parser (list ascii)) :
  advancing p -> advancing q -> returns_weak p -> returns_weak (parser_cat p q).
Proof.
  intros Ap Aq Hp s Hg. unfold parser_cat. specialize (Hp s Hg). specialize (Ap s).
  destruct (p s) as [t s1| |]; simpl in *; auto.
  destruct (fail s1); simpl; [assumption|].
  now apply (second_weak q s s1 (fun t' => t ++ t')).
Qed.

Lemma returns_weak_seq {U T : Type} `{Default T} (p : parser U) (q : parser T) :
  advancing p -> advancing q -> returns_weak p -> returns_weak (parser_seq p q).
Proof.
  intros Ap Aq Hp s Hg. unfold parser_seq. specialize (Hp s Hg). specialize (Ap s).
  destruct (p s) as [u s1| |]; simpl in *; auto.
  destruct (fail s1); simpl; [assumption|].
  now apply (second_weak q s s1 (fun t => t)).
Qed.

Lemma returns_weak_seq_void {T : Type} (p : parser T) (q : parser unit) :
  advancing p -> advancing q -> returns_weak p -> returns_weak (parser_seq_void p q).
Proof.
  intros Ap Aq Hp s Hg. unfold parser_seq_void. specialize (Hp s Hg). specialize (Ap s).
  destruct (p s) as [t s1| |]; simpl in *; auto.
  destruct (fail s1); simpl; [assumption|].
  now apply (second_weak q s s1 (fun _ => t)).
Qed.

Ltac sub_call_return Hp :=
  lazymatch goal with
  | H0 : adv ?s0 ?s |- post_return _ (call (?p ?s) _) =>
      let H := fresh "Hadv" in
      pose proof (advancing_from p s0 s Hp H0) as H;
      destruct (p s) as [? ?|?|]; cbn [call post post_return] in H |- *;
      [ | exact I | exact I]
  end.

Lemma many_loop_unfailed {T : Type} (p : parser T) (fuel : nat) (c : list T) (s : istream) :
  post_return (fun s' => fail s' = false) (many_loop p fuel c s).
Proof.
  destruct (many_loop p fuel c s) as [c' s'| |] eqn:Hm; simpl; auto.
  now destruct (many_loop_return p fuel _ _ _ _ Hm).
Qed.

Lemma many_void_unfailed (p : parser unit) (fuel : nat) (s : istream) :
  post_return (fun s' => fail s' = false) (parser_many_void fuel p s).
Proof.
  rewrite (many_void_as_many p fuel [] s).
  pose proof (many_loop_unfailed p fuel [] s) as H.
  now destruct (many_loop p fuel [] s).
Qed.

Lemma many1_loop_unfailed {T : Type} (p : parser T) (f : T -> T -> T) (fuel : nat)
    (c : T) (s : istream) :
  post_return (fun s' => fail s' = false) (many1_loop p f fuel c s).
Proof.
  pose proof (many1_loop_as_many p f fuel c [] s) as Hloop.
  change (fold_left f [] c) with c in Hloop. rewrite Hloop.
  pose proof (many_loop_unfailed p fuel [] s) as H.
  now destruct (many_loop p fuel [] s).
Qed.

Lemma post_return_unfailed {T : Type} (s0 : istream) (r : result T) :
  post_return (fun s' => fail s' = false) r -> post_return (weak_at s0) r.
Proof. destruct r; simpl; auto using weak_at_unfailed. Qed.

Lemma returns_weak_many {T : Type} (fuel : nat) (p : parser T) :
  returns_weak (parser_many fuel p).
Proof. intros s _. apply post_return_unfailed, many_loop_unfailed. Qed.

Lemma returns_weak_many_void (fuel : nat) (p : parser unit) :
  returns_weak (parser_many_void fuel p).
Proof. intros s _. apply post_return_unfailed, many_void_unfailed. Qed.

Lemma returns_weak_many1 {T : Type} (fuel : nat) (p : parser T) (f : T -> T -> T) :
  returns_weak p -> returns_weak (parser_many1 fuel p f).
Proof.
  intros Hp s Hg. unfold parser_many1. specialize (Hp s Hg).
  destruct (p s) as [c s1| |]; simpl in *; auto.
  destruct (fail s1); [assumption|].
  apply post_return_unfailed, many1_loop_unfailed.
Qed.

Lemma returns_weak_many1_void (fuel : nat) (p : parser unit) :
  returns_weak p -> returns_weak (parser_many1_void fuel p).
Proof.
  intros Hp s Hg. unfold parser_many1_void. specialize (Hp s Hg).
  destruct (p s) as [c s1| |]; simpl in *; auto.
  destruct (fail s1); simpl; [assumption|].
  apply post_return_unfailed, many_void_unfailed.
Qed.

Lemma sep_by_loop_weak {T U : Type} (p : parser T) (q : parser U) (s0 : istream)
    (fuel : nat) :
  advancing p -> advancing q ->
  forall c s, adv s0 s -> post_return (weak_at s0) (sep_by_loop p q (MARK s0) fuel c s).
Proof.
  intros Ap Aq. induction fuel as [|fuel IH]; intros c s H; [exact I|].
  rewrite sep_by_loop_S. sub_call_return Aq.
  destruct (fail _) eqn:Hf; simpl; [now apply weak_at_unfailed|].
  sub_call_return Ap. apply RETURN_IF_FAIL_weak; [assumption | now apply IH].
Qed.

Lemma returns_weak_sep_by {T U : Type} (fuel : nat) (p : parser T) (q : parser U) :
  advancing p -> advancing q -> returns_weak (parser_sep_by fuel p q).
Proof.
  intros Ap Aq s _. unfold parser_sep_by. pose proof (adv_refl s). sub_call_return Ap.
  destruct (fail _); simpl; [now apply weak_at_unfailed | now apply sep_by_loop_weak].
Qed.

Lemma sep_by_void_loop_weak {U : Type} (p : parser unit) (q : parser U) (s0 : istream)
    (fuel : nat) :
  advancing p -> advancing q ->
  forall s, adv s0 s -> post_return (weak_at s0) (sep_by_void_loop p q (MARK s0) fuel s).
Proof.
  intros Ap Aq. induction fuel as [|fuel IH]; intros s H; [exact I|].
  cbn [sep_by_void_loop]. sub_call_return Aq.
  destruct (fail _) eqn:Hf; simpl; [now apply weak_at_unfailed|].
  sub_call_return Ap. apply RETURN_IF_FAIL_weak; [assumption | now apply IH].
Qed.

Lemma returns_weak_sep_by_void {U : Type} (fuel : nat) (p : parser unit) (q : parser U) :
  advancing p -> advancing q -> returns_weak (parser_sep_by_void fuel p q).
Proof.
  intros Ap Aq s _. unfold parser_sep_by_void. pose proof (adv_refl s).
  sub_call_return Ap.
  destruct (fail _); simpl; [now apply weak_at_unfailed | now apply sep_by_void_loop_weak].
Qed.

Lemma sep_by1_loop_weak {T U : Type} `{Default T} (p : parser T) (q : parser U)
    (f : T -> T -> T) (s0 : istream) (fuel : nat) :
  advancing p -> advancing q ->
  forall c s, adv s0 s ->
    post_return (weak_at s0) (sep_by1_loop p q f (MARK s0) fuel c s).
Proof.
  intros Ap Aq. induction fuel as [|fuel IH]; intros c s H0; [exact I|].
  cbn [sep_by1_loop]. sub_call_return Aq.
  destruct (fail _) eqn:Hf; simpl; [now apply weak_at_unfailed|].
  sub_call_return Ap. apply RETURN_IF_FAIL_weak; [assumption | now apply IH].
Qed.

Lemma returns_weak_sep_by1 {T U : Type} `{Default T} (fuel : nat) (p : parser T)
    (q : parser U) (f : T -> T -> T) :
  advancing p -> advancing q -> returns_weak p ->
  returns_weak (parser_sep_by1 fuel p q f).
Proof.
  intros Ap Aq Hp s Hg. unfold parser_sep_by1. specialize (Hp s Hg).
  pose proof (adv_refl s) as H0. sub_call_return Ap.
  destruct (fail _); simpl; [assumption | now apply sep_by1_loop_weak].
Qed.

Lemma returns_weak_alt {T : Type} (p q : parser T) :
  returns_weak p -> returns_weak q -> returns_weak (parser_alt p q).
Proof.
  intros Hp Hq s Hg. unfold parser_alt. specialize (Hp s Hg).
  destruct (p s) as [t s1| |]; simpl in *; auto.
  destruct (fail s1) eqn:Hf; simpl; [|now apply weak_at_unfailed].
  specialize (Hq (clear s1) (good_clear s1)).
  destruct (q (clear s1)) as [t' s2| |]; simpl in *; auto.
  intros Hf2. rewrite (Hq Hf2). simpl. now apply Hp.
Qed.

Lemma returns_weak_alt_void (p q : parser unit) :
  returns_weak p -> returns_weak q -> returns_weak (parser_alt_void p q).
Proof.
  intros Hp Hq s Hg. unfold parser_alt_void. specialize (Hp s Hg).
  destruct (p s) as [t s1| |]; simpl in *; auto.
  destruct (fail s1) eqn:Hf; simpl; [|now apply weak_at_unfailed].
  specialize (Hq (clear s1) (good_clear s1)).
  destruct (q (clear s1)) as [t' s2| |]; simpl in *; auto.
  intros Hf2. rewrite (Hq Hf2). simpl. now apply Hp.
Qed.

(** X24.  Failures reported by return are weak, for the parsers built from
    the leaves that do not take the end of input for a character (character
    leaves whose [match] rejects [char(EOF)], literals that hold no
    [char(EOF)]) with the combinators, [parser_chain] apart: applied to a
    non-failed stream over a seekable source, [eofbit] being set only if the
    source is at its end, such a parser that returns with the failure flag
    set returns at the offset, row and column of entry. *)
Theorem library_parser_returns_weak (src : source) {T : Type} (p : parser T) :
  seekable src = true -> library_parser src p ->
  forall s t s',
    fail s = false -> (eofbit s = true -> at_end src s) ->
    p s = Return t s' -> fail s' = true ->
    off (pos s') = off (pos s) /\ row (pos s') = row (pos s) /\ col (pos s') = col (pos s).
Proof.
  intros Hs Hlib s t s' Hf He Hp Hf'.
  enough (Hpos : pos s' = pos s) by now rewrite Hpos.
  destruct (eofbit s) eqn:Hb.
  - pose proof (built_parser_stays_at_end false src p Hlib s (He eq_refl)) as Hstay.
    rewrite Hp in Hstay. now destruct Hstay.
  - assert (Hrw : returns_weak p).
    { clear s t s' Hf He Hp Hf' Hb. unfold library_parser in Hlib.
      induction Hlib; try discriminate;
        eauto using built_parser_advancing, returns_weak_match, returns_weak_eof,
          returns_weak_str, returns_weak_skip, returns_weak_map, returns_weak_cat,
          returns_weak_many, returns_weak_many_void, returns_weak_many1,
          returns_weak_many1_void, returns_weak_seq, returns_weak_seq_void,
          returns_weak_sep_by, returns_weak_sep_by_void, returns_weak_sep_by1,
          returns_weak_alt, returns_weak_alt_void, returns_weak_try. }
    assert (Hg : good s = true).
    { unfold good. unfold fail in Hf. now rewrite Hf, Hb. }
    specialize (Hrw s Hg). rewrite Hp in Hrw. now apply Hrw.
Qed.

(** The digits of a list, [sep_by(digit(), skip(','))], or else a word in
    brackets behind [try_]: a grammar of such parsers. *)
Lemma grammar_is_library (src : source) (fuel : nat) :
  library_parser src
    (parser_alt (parser_sep_by1 fuel (digit src) (skip_chr src ",") later)
       (parser_try src
          (parser_seq (parser_str src "[")
             (parser_seq_void (letter src) (parser_str src "]"))))).
Proof.
  unfold library_parser.
  repeat first [ apply lib_alt | apply lib_sep_by1 | apply lib_try | apply lib_seq
               | apply lib_seq_void | apply lib_skip
               | apply lib_str; reflexivity
               | apply lib_match; reflexivity ].
Qed.

(** On ["[x"] that grammar reads both characters, misses the bracket and
    throws inside [try_]; it returns with the flag set, and at the position
    of entry. *)
Lemma grammar_returns_weak :
  exists s',
    parser_alt (parser_sep_by1 1 (digit (source_of "[x")) (skip_chr (source_of "[x") ",") later)
      (parser_try (source_of "[x")
         (parser_seq (parser_str (source_of "[x") "[")
            (parser_seq_void (letter (source_of "[x")) (parser_str (source_of "[x") "]"))))
      s_fresh = Return char0 s' /\
    fail s' = true /\
    off (pos s') = 0 /\ row (pos s') = 1 /\ col (pos s') = 1.
Proof.
  eexists. split; [reflexivity|]. split; [reflexivity|].
  eapply (library_parser_returns_weak (source_of "[x") _ eq_refl
            (grammar_is_library (source_of "[x") 1) s_fresh);
    [reflexivity | discriminate | reflexivity | reflexivity].
Defined.

(** ** Scenarios *)

(** ["abc"] under [chr('a') > (chr('b') > chr('c'))]: ['c'], at offset 3,
    row 1, column 4. *)
Example scenario_sequence :
  parser_seq (chr (source_of "abc") "a")
    (parser_seq (chr (source_of "abc") "b") (chr (source_of "abc") "c")) s_fresh
  = Return "c"%char (mkStream false false 3 (mkPos 3 1 4) "c").
Proof. reflexivity. Qed.

(** The concatenation [chr('a') + chr('b') + chr('c')] yields ["abc"]. *)
Example scenario_concatenation :
  parser_cat
    (parser_cat (to_string_parser (chr (source_of "abc") "a"))
                (to_string_parser (chr (source_of "abc") "b")))
    (to_string_parser (chr (source_of "abc") "c")) s_fresh
  = Return ["a"; "b"; "c"]%char (mkStream false false 3 (mkPos 3 1 4) "c").
Proof. reflexivity. Qed.

(** ["1,2,3"] under [sep_by(digit(), skip(','))]: the three digits, all of
    the input consumed. *)
Example scenario_sep_by :
  parser_sep_by 3 (digit (source_of "1,2,3")) (skip_chr (source_of "1,2,3") ",") s_fresh
  = Return ["1"; "2"; "3"]%char (mkStream false false 5 (mkPos 5 1 6) "3").
Proof. reflexivity. Qed.

(** A tab after ["ab"] moves from column 3 to column 9, and the newline
    after it to row 2, column 1. *)
Example scenario_position :
  parser_many 4
    (one_of (mkSource ["a"; "b"; tab; newline]%char true)
       (String "a" (String "b" (String tab EmptyString)))) s_fresh
  = Return ["a"; "b"; tab]%char (mkStream false false 3 (mkPos 3 1 9) tab) /\
  parser_many 5
    (one_of (mkSource ["a"; "b"; tab; newline]%char true)
       (String "a" (String "b" (String tab (String newline EmptyString))))) s_fresh
  = Return ["a"; "b"; tab; newline]%char (mkStream false false 4 (mkPos 4 2 1) newline).
Proof. split; reflexivity. Qed.

(** * Further properties *)

(** ** Characters read off the source *)

Lemma sgetc_rest (src : source) (s : istream) : sgetc src s = hd_error (rest src s).
Proof. unfold sgetc, rest. symmetry. apply hd_error_skipn. Qed.

Lemma skipn_S_tail {A : Type} (n : nat) (l : list A) (a : A) (l' : list A) :
  skipn n l = a :: l' -> skipn (S n) l = l'.
Proof.
  revert l. induction n as [|n IH]; intros l H.
  - cbn in H. now subst.
  - destruct l as [|b l]; [discriminate|].
    change (skipn (S (S n)) (b :: l)) with (skipn (S n) l). apply IH. exact H.
Qed.

Lemma last_cons_default {A : Type} (a : A) (l : list A) (d : A) :
  last (a :: l) d = last l a.
Proof.
  revert a d. induction l as [|b l IH]; intros a d; [reflexivity|].
  change (last (a :: b :: l) d) with (last (b :: l) d). now rewrite !IH.
Qed.

Lemma consumed_nil (s : istream) : good s = true -> consumed s [] = s.
Proof.
  destruct s as [f e g p c]. unfold good, consumed. simpl. intros H.
  apply andb_true_iff in H as [Hf He]. apply negb_true_iff in Hf, He. now subst.
Qed.

Lemma consumed_cons (s : istream) (a : ascii) (l : list ascii) :
  consumed (consumed s [a]) l = consumed s (a :: l).
Proof.
  unfold consumed. cbn [gpos pos lastc].
  change (last [a] (lastc s)) with a. rewrite (last_cons_default a l).
  f_equal. simpl. lia.
Qed.

Lemma rest_consumed (src : source) (s : istream) (a : ascii) (l : list ascii) :
  rest src s = a :: l -> rest src (consumed s [a]) = l.
Proof. unfold rest. simpl. apply skipn_S_tail. Qed.

(** One character read and counted on a good stream. *)
Lemma consume_one (src : source) (s : istream) (a : ascii) (l : list ascii) :
  good s = true -> rest src s = a :: l ->
  update_pos (ignore src s) = consumed s [a].
Proof.
  intros Hg Hr. unfold ignore. rewrite (sentry_good s Hg), sgetc_rest, Hr. simpl.
  unfold good in Hg. apply andb_true_iff in Hg as [Hf He].
  apply negb_true_iff in Hf, He. unfold update_pos, set_pos, consumed. simpl.
  now rewrite Hf, He.
Qed.

Lemma peek_next (src : source) (s : istream) (a : ascii) (l : list ascii) :
  good s = true -> rest src s = a :: l -> peek src s = (Some a, s).
Proof. intros Hg Hr. rewrite (peek_good src s Hg), sgetc_rest, Hr. reflexivity. Qed.

Lemma peek_end (src : source) (s : istream) :
  good s = true -> rest src s = [] -> peek src s = (EOF, setstate_eofbit s).
Proof. intros Hg Hr. rewrite (peek_good src s Hg), sgetc_rest, Hr. reflexivity. Qed.




(** What [parser_match] does on a good stream, by the characters left. *)
Lemma match_step (src : source) (m : ascii -> bool) (s : istream) :
  good s = true -> m (to_char EOF) = false ->
  parser_match src m s
  = match rest src s with
    | a :: _ => if m a then Return a (consumed s [a]) else Return char0 (setstate_failbit s)
    | [] => Return char0 (setstate_failbit (setstate_eofbit s))
    end.
Proof.
  intros Hg Hm. unfold parser_match. rewrite (good_unfailed s Hg).
  destruct (rest src s) as [|a l] eqn:Hr.
  - rewrite (peek_end src s Hg Hr). now rewrite Hm.
  - rewrite (peek_next src s a l Hg Hr). cbn [to_char].
    destruct (m a); [now rewrite (consume_one src s a l Hg Hr) | reflexivity].
Qed.

Lemma many_loop_over_match (src : source) (m : ascii -> bool) :
  m (to_char EOF) = false ->
  forall l c s, good s = true -> rest src s = l ->
    many_loop (parser_match src m) (S (List.length (take_while m l))) c s
    = Return (c ++ take_while m l) (consumed s (take_while m l)).
Proof.
  intros Hm. induction l as [|a l IH]; intros c s Hg Hr.
  - cbn [take_while List.length]. rewrite many_loop_S, (match_step src m s Hg Hm), Hr.
    cbn [call]. now rewrite app_nil_r.
  - cbn [take_while]. destruct (m a) eqn:Ha.
    + cbn [List.length]. rewrite many_loop_S, (match_step src m s Hg Hm), Hr, Ha.
      cbn [call]. change (fail (consumed s [a])) with false. cbv iota.
      rewrite (IH (c ++ [a]) (consumed s [a]) eq_refl (rest_consumed src s a l Hr)).
      now rewrite consumed_cons, <- app_assoc.
    + cbn [List.length]. rewrite many_loop_S, (match_step src m s Hg Hm), Hr, Ha.
      cbn [call]. now rewrite app_nil_r.
Qed.

(** X2.  [many(p)] over a single-character leaf is the longest match: on a
    good stream, for a [match] that rejects [char(EOF)], it returns the
    longest run of next characters that pass [match], in order, having read
    exactly those; the stream is left good, the character that ended the run
    unread.  One application more than the run is long is all it takes. *)
Theorem many_takes_longest_run (src : source) (m : ascii -> bool) (s : istream) :
  good s = true -> m (to_char EOF) = false ->
  parser_many (S (List.length (take_while m (rest src s)))) (parser_match src m) s
  = Return (take_while m (rest src s)) (consumed s (take_while m (rest src s))).
Proof.
  intros Hg Hm. unfold parser_many.
  apply (many_loop_over_match src m Hm (rest src s) [] s Hg eq_refl).
Qed.

(** On ["42a"], [many(digit())] returns ["42"] and stops before the ['a']. *)
Lemma many_takes_longest_run_witness :
  parser_many 3 (digit (source_of "42a")) s_fresh
  = Return ["4"; "2"]%char (mkStream false false 2 (mkPos 2 1 3) "2").
Proof.
  exact (many_takes_longest_run (source_of "42a") isdigit s_fresh eq_refl eq_refl).
Defined.

Lemma blank_match_spec (c : ascii) :
  blank_match c = true <-> c = " "%char \/ c = tab \/ c = char0.
Proof.
  unfold blank_match. cbn [strchr].
  change (Ascii.eqb " " char0) with false. change (Ascii.eqb tab char0) with false.
  destruct (Ascii.eqb_spec " " c) as [<-|H1]; [tauto|].
  destruct (Ascii.eqb_spec tab c) as [<-|H2]; [tauto|].
  destruct (Ascii.eqb_spec c char0) as [->|H3]; [tauto|].
  split.
  - intros H. discriminate H.
  - intros H. destruct H as [H|[H|H]]; congruence.
Qed.

Lemma many_void_S (p : parser unit) (fuel : nat) (s : istream) :
  parser_many_void (S fuel) p s
  = call (p s) (fun _ s1 =>
      if negb (fail s1) then parser_many_void fuel p s1 else Return tt (clear s1)).
Proof. reflexivity. Qed.

Lemma skip_match_step (src : source) (m : ascii -> bool) (s : istream) :
  good s = true -> m (to_char EOF) = false ->
  parser_skip (parser_match src m) s
  = match rest src s with
    | a :: _ => if m a then Return tt (consumed s [a]) else Return tt (setstate_failbit s)
    | [] => Return tt (setstate_failbit (setstate_eofbit s))
    end.
Proof.
  intros Hg Hm. unfold parser_skip. rewrite (match_step src m s Hg Hm).
  destruct (rest src s) as [|a l]; [reflexivity|]. now destruct (m a).
Qed.

Lemma many_void_over_skip_match (src : source) (m : ascii -> bool) :
  m (to_char EOF) = false ->
  forall l s, good s = true -> rest src s = l ->
    parser_many_void (S (List.length (take_while m l))) (parser_skip (parser_match src m)) s
    = Return tt (consumed s (take_while m l)).
Proof.
  intros Hm. induction l as [|a l IH]; intros s Hg Hr.
  - cbn [take_while List.length].
    rewrite many_void_S, (skip_match_step src m s Hg Hm), Hr. reflexivity.
  - cbn [take_while]. destruct (m a) eqn:Ha; cbn [List.length];
      rewrite many_void_S, (skip_match_step src m s Hg Hm), Hr, Ha; [|reflexivity].
    cbn [call]. change (fail (consumed s [a])) with false. cbn [negb].
    rewrite (IH (consumed s [a]) eq_refl (rest_consumed src s a l Hr)).
    now rewrite consumed_cons.
Qed.

(** X3.  [blanks()] skips exactly the blanks.  On a good stream it returns
    with the stream good, having read the longest run of next characters
    that are a space, a tab or, [strchr] finding the terminator of [" \t"],
    a NUL; what follows the run is unread. *)
Theorem blanks_skips_the_blanks (src : source) (s : istream) :
  good s = true ->
  blanks src (S (List.length (take_while blank_match (rest src s)))) s
    = Return tt (consumed s (take_while blank_match (rest src s))) /\
  (forall c, blank_match c = true <-> c = " "%char \/ c = tab \/ c = char0).
Proof.
  intros Hg. split; [|apply blank_match_spec].
  unfold blanks, blank, one_of.
  apply (many_void_over_skip_match src blank_match eq_refl (rest src s) s Hg eq_refl).
Qed.

(** Two spaces and a tab before ["x"]: [blanks()] stops at offset 3, column 9. *)
Lemma blanks_skips_the_blanks_witness :
  blanks (mkSource [" "; " "; tab; "x"]%char true) 4 s_fresh
  = Return tt (mkStream false false 3 (mkPos 3 1 9) tab).
Proof.
  destruct (blanks_skips_the_blanks (mkSource [" "; " "; tab; "x"]%char true) s_fresh
              eq_refl) as (Hrun & _).
  exact Hrun.
Defined.

(** ** Literal strings *)

Lemma updates_off (l : list ascii) (p : Pos) :
  off (updates p l) = off p + Z.of_nat (List.length l).
Proof.
  unfold updates. revert p. induction l as [|a l IH]; intros p; [simpl; lia|].
  cbn [fold_left List.length]. rewrite IH, update_off. lia.
Qed.

Lemma parser_str_loop_matches (src : source) (_off : Z) (t : string) :
  forall s tl, good s = true ->
    (forall c, In c (list_ascii_of_string t) -> c <> char0 /\ seven_bit c = true) ->
    rest src s = list_ascii_of_string t ++ tl ->
    parser_str_loop src _off t s = Return tt (consumed s (list_ascii_of_string t)) /\
    rest src (consumed s (list_ascii_of_string t)) = tl.
Proof.
  induction t as [|a t IH]; intros s tl Hg Hc Hr; cbn [list_ascii_of_string] in *.
  - rewrite (consumed_nil s Hg). auto.
  - cbn [parser_str_loop].
    destruct (Hc a (or_introl eq_refl)) as (Ha & H7).
    destruct (Ascii.eqb_spec a char0) as [|_]; [contradiction|].
    rewrite (peek_next src s a _ Hg Hr). cbv beta iota.
    rewrite int_eqb_char, Ascii.eqb_refl, H7. cbn [andb].
    rewrite (consume_one src s a _ Hg Hr).
    destruct (IH (consumed s [a]) tl eq_refl) as (Hloop & Hrest).
    + intros c Hin. apply Hc. now right.
    + apply (rest_consumed src s a _ Hr).
    + rewrite consumed_cons in Hloop, Hrest. auto.
Qed.

(** X4.  [skip("abc")] on a match.  On a good stream whose next characters
    are those of the literal, a C string of 7-bit characters (none of them
    NUL, which would end it, nor a byte from 128 on, which as a plain [char]
    is negative and equals nothing that [peek] returns), [skip] of the
    literal returns with the stream good, having read exactly the literal:
    the read position and the offset have grown by its length, the position
    has been updated character by character, and what followed the literal
    is what is left. *)
Theorem skip_literal_consumes_it (src : source) (t : string) (tl : list ascii)
    (s : istream) :
  good s = true ->
  (forall c, In c (list_ascii_of_string t) -> c <> char0 /\ seven_bit c = true) ->
  rest src s = list_ascii_of_string t ++ tl ->
  parser_str src t s = Return tt (consumed s (list_ascii_of_string t)) /\
  rest src (consumed s (list_ascii_of_string t)) = tl /\
  off (pos (consumed s (list_ascii_of_string t)))
    = off (pos s) + Z.of_nat (String.length t).
Proof.
  intros Hg Hn Hr. unfold parser_str. rewrite (good_unfailed s Hg).
  destruct (parser_str_loop_matches src (MARK s) t s tl Hg Hn Hr) as (Hloop & Hrest).
  split; [assumption|]. split; [assumption|].
  unfold consumed. cbn [pos]. rewrite updates_off. f_equal. f_equal.
  clear. induction t as [|a t IH]; [reflexivity|]. simpl. now rewrite IH.
Qed.

(** On ["let x"], [skip("let")] leaves the stream before the space. *)
Lemma skip_literal_consumes_it_witness :
  parser_str (source_of "let x") "let" s_fresh
    = Return tt (mkStream false false 3 (mkPos 3 1 4) "t") /\
  rest (source_of "let x") (mkStream false false 3 (mkPos 3 1 4) "t") = [" "; "x"]%char.
Proof.
  destruct (skip_literal_consumes_it (source_of "let x") "let" [" "; "x"]%char s_fresh
              eq_refl) as (Hret & Hrest & _).
  - simpl. intros c [<-|[<-|[<-|[]]]]; (split; [discriminate | reflexivity]).
  - reflexivity.
  - split; [exact Hret | exact Hrest].
Defined.

(** The stream on which a literal stops matching: the [peek] that saw the
    wrong character, or the end of input, then [setstate(failbit)]. *)
Lemma parser_str_loop_mismatch (src : source) (_off : Z) (u : string) (a : ascii)
    (v : string) :
  forall s tl, good s = true ->
    (forall c, In c (list_ascii_of_string u) -> c <> char0 /\ seven_bit c = true) ->
    a <> char0 -> a <> to_char EOF ->
    rest src s = list_ascii_of_string u ++ tl -> hd_error tl <> Some a ->
    parser_str_loop src _off (u ++ String a v) s
    = RETURN _off tt
        (setstate_failbit
           match tl with
           | [] => setstate_eofbit (consumed s (list_ascii_of_string u))
           | _ :: _ => consumed s (list_ascii_of_string u)
           end).
Proof.
  induction u as [|b u IH]; intros s tl Hg Hc Ha He Hr Hd;
    cbn [list_ascii_of_string String.append parser_str_loop] in *.
  - rewrite (consumed_nil s Hg).
    destruct (Ascii.eqb_spec a char0) as [|_]; [contradiction|].
    destruct tl as [|c tl].
    + rewrite (peek_end src s Hg Hr). cbv beta iota. rewrite int_eqb_EOF.
      destruct (Ascii.eqb_spec a (to_char EOF)) as [|_]; [contradiction | reflexivity].
    + rewrite (peek_next src s c tl Hg Hr). cbv beta iota. rewrite int_eqb_char.
      destruct (Ascii.eqb_spec c a) as [->|_]; [now elim Hd | reflexivity].
  - destruct (Hc b (or_introl eq_refl)) as (Hb & H7).
    destruct (Ascii.eqb_spec b char0) as [|_]; [contradiction|].
    rewrite (peek_next src s b _ Hg Hr). cbv beta iota.
    rewrite int_eqb_char, Ascii.eqb_refl, H7. cbn [andb].
    rewrite (consume_one src s b _ Hg Hr).
    assert (Hc' : forall c, In c (list_ascii_of_string u) ->
                    c <> char0 /\ seven_bit c = true)
      by (intros c Hin; apply Hc; now right).
    rewrite (IH (consumed s [b]) tl eq_refl Hc' Ha He (rest_consumed src s b _ Hr) Hd).
    now rewrite consumed_cons.
Qed.

(** X5.  [skip("abc")] on a mismatch.  On a good stream whose next
    characters are a proper prefix [u] of the literal, of 7-bit characters
    none of them NUL, but not its next character, which is neither NUL nor
    [char(EOF)]: when [u] is empty the literal fails weakly, returning with
    [failbit] set and nothing read; when [u] is not empty it throws
    [ParserError], the characters of [u] read and counted.  In both cases
    the character that did not match is left unread, and [eofbit] is set if
    the input ended there. *)
Theorem skip_literal_mismatch (src : source) (u : string) (a : ascii) (v : string)
    (tl : list ascii) (s : istream) :
  good s = true ->
  (forall c, In c (list_ascii_of_string u) -> c <> char0 /\ seven_bit c = true) ->
  a <> char0 -> a <> to_char EOF ->
  rest src s = list_ascii_of_string u ++ tl -> hd_error tl <> Some a ->
  parser_str src (u ++ String a v) s
  = match list_ascii_of_string u with
    | [] => Return tt
    | _ :: _ => ParserError
    end
      (setstate_failbit
         match tl with
         | [] => setstate_eofbit (consumed s (list_ascii_of_string u))
         | _ :: _ => consumed s (list_ascii_of_string u)
         end).
Proof.
  intros Hg Hc Ha He Hr Hd. unfold parser_str. rewrite (good_unfailed s Hg).
  rewrite (parser_str_loop_mismatch src (MARK s) u a v s tl Hg Hc Ha He Hr Hd).
  unfold RETURN, failed_since, MARK, tellg.
  assert (Hoff : forall x, off (pos (setstate_failbit
              match tl with [] => setstate_eofbit (consumed s x) | _ :: _ => consumed s x end))
            = off (pos s) + Z.of_nat (List.length x)).
  { intros x. destruct tl; simpl; apply updates_off. }
  rewrite Hoff. destruct (list_ascii_of_string u) as [|b lu].
  - replace (off (pos s) + Z.of_nat (List.length (@nil ascii)) - (off (pos s) - 0) =? 0)
      with true by (symmetry; apply Z.eqb_eq; simpl; lia).
    now rewrite andb_false_r.
  - replace (off (pos s) + Z.of_nat (List.length (b :: lu)) - (off (pos s) - 0) =? 0)
      with false by (symmetry; apply Z.eqb_neq; simpl List.length; lia).
    now destruct tl.
Qed.

(** On ["ac"], [skip("ab")] throws with the ['a'] read; on ["xb"] it fails
    weakly at offset 0. *)
Lemma skip_literal_mismatch_witness :
  parser_str (source_of "ac") "ab" s_fresh
    = ParserError (mkStream true false 1 (mkPos 1 1 2) "a") /\
  parser_str (source_of "xb") "ab" s_fresh
    = Return tt (mkStream true false 0 Pos0 char0).
Proof.
  split.
  - apply (skip_literal_mismatch (source_of "ac") "a" "b" "" ["c"%char] s_fresh eq_refl).
    + simpl. intros c [<-|[]]. split; [discriminate | reflexivity].
    + discriminate.
    + discriminate.
    + reflexivity.
    + discriminate.
  - apply (skip_literal_mismatch (source_of "xb") "" "a" "b" ["x"; "b"]%char s_fresh eq_refl).
    + simpl. tauto.
    + discriminate.
    + discriminate.
    + reflexivity.
    + discriminate.
Defined.

Lemma RETURN_throws {T : Type} (o : Z) (t : T) (s : istream) :
  fail s = true -> off (pos s) <> o -> RETURN o t s = ParserError s.
Proof. intros Hf Ho. unfold RETURN. now rewrite failed_since_true. Qed.

Lemma RETURN_then_throws {T : Type} (o o' : Z) (t : T) (s : istream) :
  fail s = true -> off (pos s) <> o ->
  call (RETURN o' t s) (fun _ s3 => RETURN o t s3) = RETURN o t s.
Proof.
  intros Hf Ho. rewrite (RETURN_throws o t s Hf Ho). unfold RETURN at 1.
  destruct (failed_since o' s); cbn [call]; [reflexivity|].
  now apply RETURN_throws.
Qed.

(** A literal of 7-bit characters holds no [char(EOF)]. *)
Lemma seven_bit_strchr (t : string) :
  (forall c, In c (list_ascii_of_string t) -> seven_bit c = true) ->
  strchr t (to_char EOF) = false.
Proof.
  induction t as [|a t IH]; intros Hc; [reflexivity|].
  cbn [strchr]. rewrite (seven_bit_not_EOF a) by (apply Hc; now left).
  destruct (Ascii.eqb a char0); [reflexivity|].
  apply IH. intros c Hin. apply Hc. now right.
Qed.

(** Past the first character the loop of [skip(t)] throws on every mismatch,
    whether the offset it compares with is that of entry or a later one that
    is still not past the stream. *)
Lemma parser_str_loop_rebase (src : source) (o o' : Z) (t : string) :
  strchr t (to_char EOF) = false ->
  forall x, good x = true -> o < off (pos x) -> o' <= off (pos x) ->
    call (parser_str_loop src o' t x) (fun _ s3 => RETURN o tt s3)
    = parser_str_loop src o t x.
Proof.
  induction t as [|a t IH]; intros Ht x Hg Ho Ho'; cbn [parser_str_loop].
  - cbn [call]. unfold RETURN. now rewrite (failed_since_unfailed o x (good_unfailed x Hg)).
  - destruct (Ascii.eqb a char0) eqn:Ha.
    + cbn [call]. unfold RETURN.
      now rewrite (failed_since_unfailed o x (good_unfailed x Hg)).
    + destruct (strchr_tail a t Ht Ha) as (Hn & Ht').
      rewrite (peek_good src x Hg). destruct (sgetc src x) as [b|] eqn:Hb; cbv beta iota.
      * destruct (int_eqb (Some b) a).
        -- apply IH.
           ++ assumption.
           ++ now apply consume_good with b.
           ++ unfold update_pos. simpl. rewrite update_off, ignore_pos. lia.
           ++ unfold update_pos. simpl. rewrite update_off, ignore_pos. lia.
        -- apply RETURN_then_throws; [reflexivity | simpl; lia].
      * rewrite int_eqb_EOF, Hn.
        apply RETURN_then_throws; [reflexivity | simpl; lia].
Qed.

(** [skip(a t)] is [skip(a) > skip(t)]. *)
Lemma parser_str_cons (src : source) (a : ascii) (t : string) (s : istream) :
  a <> char0 -> seven_bit a = true -> strchr t (to_char EOF) = false ->
  parser_str src (String a t) s
  = parser_seq_void (skip_chr src a) (parser_str src t) s.
Proof.
  intros Ha H7 Ht. pose proof (seven_bit_not_EOF a H7) as Hn.
  assert (Hn' : Ascii.eqb (to_char EOF) a = false) by now rewrite Ascii.eqb_sym.
  unfold parser_str at 1, parser_seq_void, skip_chr, parser_skip, chr, parser_match.
  destruct (fail s) eqn:Hf; [reflexivity|].
  cbn [parser_str_loop]. destruct (Ascii.eqb_spec a char0) as [|_]; [contradiction|].
  pose proof (peek_pos src s) as Hpp.
  unfold peek, sentry in *. destruct (good s) eqn:Hg.
  - destruct (sgetc src s) as [b|] eqn:Hb; cbv beta iota; cbn [to_char call] in *.
    + rewrite int_eqb_char, H7, andb_true_r.
      destruct (Ascii.eqb b a); cbn [call].
      * assert (Hg' : good (update_pos (ignore src s)) = true)
          by now apply consume_good with b.
        rewrite (good_unfailed _ Hg'). cbn [negb]. unfold parser_str.
        rewrite (good_unfailed _ Hg'). symmetry.
        apply parser_str_loop_rebase; [assumption|assumption| |unfold MARK, tellg; lia].
        unfold MARK, tellg, update_pos. simpl. rewrite update_off, ignore_pos. lia.
      * unfold RETURN. rewrite failed_since_same; [reflexivity|].
        unfold MARK, tellg. simpl. lia.
    + rewrite int_eqb_EOF, Hn, Hn'.
      cbn [call]. unfold RETURN. rewrite failed_since_same; [reflexivity|].
      unfold MARK, tellg. simpl. lia.
  - cbv beta iota. rewrite int_eqb_EOF, Hn, Hn'.
    cbn [call]. unfold RETURN. rewrite failed_since_same; [reflexivity|].
    unfold MARK, tellg. simpl. lia.
Qed.

Lemma parser_str_single (src : source) (a : ascii) (s : istream) :
  a <> char0 -> seven_bit a = true ->
  parser_str src (String a EmptyString) s = skip_chr src a s.
Proof.
  intros Ha H7. rewrite (parser_str_cons src a EmptyString s Ha H7 eq_refl).
  unfold parser_seq_void. destruct (skip_chr src a s) as [[] s1|s1|]; cbn [call];
    try reflexivity.
  destruct (fail s1) eqn:Hf; cbn [negb]; [reflexivity|].
  unfold parser_str. rewrite Hf. cbn [parser_str_loop call]. unfold RETURN.
  now rewrite (failed_since_unfailed _ s1 Hf).
Qed.

(** X6.  The header's remark that [skip("abc")] equals the sequence of
    [skip('a')], [skip('b')], [skip('c')] holds, on every stream and with
    the same escalation of a late mismatch, for literals of 7-bit
    characters, none of them NUL: for a byte from 128 on [skip('c')]
    compares two [char]s and [skip("c")] an [int] with a negative [char]. *)
Theorem skip_literal_is_sequence (src : source) (t : string) (s : istream) :
  (forall c, In c (list_ascii_of_string t) -> c <> char0 /\ seven_bit c = true) ->
  parser_str src t s = skip_each src t s.
Proof.
  revert s. induction t as [|a t IH]; intros s Hc; [reflexivity|].
  assert (Ha : a <> char0 /\ seven_bit a = true) by (apply Hc; now left).
  destruct Ha as (Ha & H7).
  assert (Hc' : forall c, In c (list_ascii_of_string t) ->
                  c <> char0 /\ seven_bit c = true)
    by (intros c Hin; apply Hc; now right).
  destruct t as [|b t]; [now apply parser_str_single|].
  change (skip_each src (String a (String b t)))
    with (parser_seq_void (skip_chr src a) (skip_each src (String b t))).
  rewrite (parser_str_cons src a (String b t) s Ha H7)
    by (apply seven_bit_strchr; intros c Hin; now apply Hc').
  unfold parser_seq_void. destruct (skip_chr src a s) as [u s1|s1|]; cbn [call];
    try reflexivity.
  destruct (fail s1); cbn [negb]; [reflexivity|].
  now rewrite IH.
Qed.

(** On ["abd"] both [skip("abc")] and [skip('a') > (skip('b') > skip('c'))]
    throw with two characters read. *)
Lemma skip_literal_is_sequence_witness :
  parser_str (source_of "abd") "abc" s_fresh
    = parser_seq_void (skip_chr (source_of "abd") "a")
        (parser_seq_void (skip_chr (source_of "abd") "b") (skip_chr (source_of "abd") "c"))
        s_fresh /\
  parser_str (source_of "abd") "abc" s_fresh
    = ParserError (mkStream true false 2 (mkPos 2 1 3) "b").
Proof.
  split; [|reflexivity].
  apply (skip_literal_is_sequence (source_of "abd") "abc" s_fresh).
  simpl. intros c [<-|[<-|[<-|[]]]]; (split; [discriminate | reflexivity]).
Defined.

(** Outside the 7-bit characters the comparison is of an [int] with a
    negative [char].  [skip] of the literal of the one byte 233 fails weakly
    on the input that is that byte, which [skip] of the character reads; and
    at the end of input [skip] of the literal of the one byte 255 takes
    [EOF] for its character: it returns with [failbit] set and the offset
    one past its value on entry. *)
Example skip_literal_of_negative_char :
  parser_str (mkSource ["233"%char] true) (String "233" EmptyString) s_fresh
    = Return tt (mkStream true false 0 Pos0 char0) /\
  skip_chr (mkSource ["233"%char] true) "233" s_fresh
    = Return tt (mkStream false false 1 (mkPos 1 1 2) "233") /\
  parser_str (source_of "") (String (to_char EOF) EmptyString) s_fresh
    = Return tt (mkStream true true 0 (mkPos 1 1 2) char0).
Proof. repeat split. Qed.

(** ** Positions *)

Lemma update_col_positive (p : Pos) (c : ascii) : 1 <= col p -> 1 <= col (update p c).
Proof.
  intros Hc. unfold update.
  destruct (Ascii.eqb c tab); [|destruct (Ascii.eqb c newline)]; cbn [col]; try lia.
  rewrite Z.rem_mod_nonneg by lia.
  pose proof (Z.mod_pos_bound (col p - 1) 8 ltac:(lia)). lia.
Qed.

Lemma update_row (p : Pos) (c : ascii) :
  row (update p c) = row p + Z.of_nat (count_occ ascii_dec [c] newline).
Proof.
  unfold update. cbn [count_occ].
  destruct (Ascii.eqb_spec c tab) as [->|Ht].
  - destruct (ascii_dec tab newline) as [E|_]; [discriminate E | simpl; lia].
  - destruct (Ascii.eqb_spec c newline) as [->|Hn].
    + destruct (ascii_dec newline newline) as [_|E]; [simpl; lia | now elim E].
    + destruct (ascii_dec c newline) as [E|_]; [contradiction | simpl; lia].
Qed.

(** X7.  The position after a run of characters.  Whatever the characters,
    [off] has grown by their number and [row] by the number of newlines
    among them, and a column that was at least 1 still is; over characters
    that are neither tab nor newline [col] has grown by their number. *)
Theorem position_after_run (p : Pos) (l : list ascii) :
  off (updates p l) = off p + Z.of_nat (List.length l) /\
  row (updates p l) = row p + Z.of_nat (count_occ ascii_dec l newline) /\
  (1 <= col p -> 1 <= col (updates p l)) /\
  ((forall c, In c l -> c <> tab /\ c <> newline) ->
   col (updates p l) = col p + Z.of_nat (List.length l)).
Proof.
  split; [apply updates_off|]. unfold updates.
  split; [|split].
  - revert p. induction l as [|a l IH]; intros p; [simpl; lia|].
    cbn [fold_left]. rewrite IH, update_row.
    change (a :: l) with ([a] ++ l). rewrite count_occ_app. lia.
  - revert p. induction l as [|a l IH]; intros p Hc; [assumption|].
    cbn [fold_left]. apply IH. now apply update_col_positive.
  - revert p. induction l as [|a l IH]; intros p Hc; [simpl; lia|].
    cbn [fold_left List.length]. rewrite IH by (intros c Hin; apply Hc; now right).
    destruct (Hc a (or_introl eq_refl)) as (Ht & Hn).
    unfold update.
    destruct (Ascii.eqb_spec a tab) as [|_]; [contradiction|].
    destruct (Ascii.eqb_spec a newline) as [|_]; [contradiction|]. simpl. lia.
Qed.

(** After ["ab"], a newline and ["cd"] the position is offset 5, row 2,
    column 3. *)
Lemma position_after_run_witness :
  updates Pos0 ["a"; "b"; newline; "c"; "d"]%char = mkPos 5 2 3 /\
  1 <= col (updates Pos0 ["a"; "b"; newline; "c"; "d"]%char) /\
  col (updates (mkPos 3 2 1) ["c"; "d"]%char) = 1 + 2.
Proof.
  split; [reflexivity|].
  destruct (position_after_run Pos0 ["a"; "b"; newline; "c"; "d"]%char)
    as (_ & _ & Hcol & _).
  destruct (position_after_run (mkPos 3 2 1) ["c"; "d"]%char) as (_ & _ & _ & Hplain).
  split; [apply Hcol; simpl; lia|].
  apply Hplain. simpl. intros c [<-|[<-|[]]]; split; discriminate.
Defined.

(** ** Character classes and the end of input *)




(** X9.  [eof()] only looks.  On a stream that has not failed it never
    reads and never moves: it succeeds when [eofbit] is already set, or
    when the source has nothing left, which sets [eofbit]; otherwise it
    fails weakly, [failbit] set and the next character unread. *)
Theorem eof_only_looks (src : source) (s : istream) :
  fail s = false ->
  (eof s = true -> parser_eof src s = Return tt s) /\
  (eof s = false -> rest src s = [] ->
     parser_eof src s = Return tt (setstate_eofbit s)) /\
  (eof s = false -> forall a l, rest src s = a :: l ->
     parser_eof src s = Return tt (setstate_failbit s)).
Proof.
  intros Hf. unfold parser_eof. rewrite Hf.
  split; [|split].
  - intros He. now rewrite He.
  - intros He Hr. rewrite He.
    assert (Hg : good s = true) by (unfold good, fail, eof in *; now rewrite Hf, He).
    now rewrite (peek_end src s Hg Hr).
  - intros He a l Hr. rewrite He.
    assert (Hg : good s = true) by (unfold good, fail, eof in *; now rewrite Hf, He).
    now rewrite (peek_next src s a l Hg Hr).
Qed.

(** At the end of ["ab"] [eof()] succeeds; at its start it fails weakly. *)
Lemma eof_only_looks_witness :
  parser_eof (source_of "ab") (mkStream false false 2 (mkPos 2 1 3) "b")
    = Return tt (mkStream false true 2 (mkPos 2 1 3) "b") /\
  parser_eof (source_of "ab") s_fresh = Return tt (mkStream true false 0 Pos0 char0).
Proof.
  split.
  - destruct (eof_only_looks (source_of "ab") (mkStream false false 2 (mkPos 2 1 3) "b")
                eq_refl) as (_ & Hend & _).
    exact (Hend eq_refl eq_refl).
  - destruct (eof_only_looks (source_of "ab") s_fresh eq_refl) as (_ & _ & Hmore).
    exact (Hmore eq_refl "a"%char ["b"%char] eq_refl).
Defined.

(** ** How the combinators compose *)

(** X10.  Mapping composes: [(p >> f) >> g] is [p >> (g after f)] on every
    stream, the stream being left as [p] left it and a failure of [p]
    yielding [T()] either way; and dropping the result of [p >> f] is
    dropping the result of [p]. *)
Theorem map_fusion {U T V : Type} `{Default T} `{Default V} (p : parser U)
    (f : U -> T) (g : T -> V) (s : istream) :
  parser_map (parser_map p f) g s = parser_map p (fun u => g (f u)) s /\
  parser_skip (parser_map p f) s = parser_skip p s.
Proof.
  unfold parser_map, parser_skip.
  destruct (p s) as [u s1| |]; cbn [call]; [|split; reflexivity|split; reflexivity].
  destruct (fail s1) eqn:Hf; cbn [call]; rewrite ?Hf; split; reflexivity.
Qed.

(** X11.  Chaining with parsing functions is associative, and chaining with
    a function that only computes is mapping: [parser_chain] obeys the laws
    of a bind whose failure skips the rest. *)
Theorem chain_laws {U T V : Type} `{Default T} `{Default V} (p : parser U)
    (f : U -> parser T) (g : T -> parser V) (h : U -> T) (s : istream) :
  parser_chain (parser_chain p f) g s
    = parser_chain p (fun u => parser_chain (f u) g) s /\
  parser_chain p (fun u s' => Return (h u) s') s = parser_map p h s.
Proof.
  unfold parser_chain, parser_map.
  destruct (p s) as [u s1| |]; cbn [call]; [|split; reflexivity|split; reflexivity].
  destruct (fail s1) eqn:Hf; cbn [call]; rewrite ?Hf; split; reflexivity.
Qed.

(** X12.  Alternation is associative: [(p | q) | r] and [p | (q | r)] end
    the same way on every stream. *)
Theorem alt_assoc {T : Type} (p q r : parser T) (s : istream) :
  parser_alt (parser_alt p q) r s = parser_alt p (parser_alt q r) s.
Proof.
  unfold parser_alt.
  destruct (p s) as [t s1| |]; cbn [call]; try reflexivity.
  destruct (fail s1) eqn:Hf; cbn [negb call]; [reflexivity|].
  now rewrite Hf.
Qed.

Lemma RETURN_RETURN {T V : Type} (o o' : Z) (k : T -> V) (t : T) (s : istream) :
  (off (pos s) = o -> off (pos s) = o') ->
  call (RETURN o' t s) (fun t' s' => RETURN o (k t') s') = RETURN o (k t) s.
Proof.
  intros Ho. unfold RETURN at 1. unfold failed_since, tellg.
  destruct (fail s) eqn:Hf; cbn [andb call]; [|reflexivity].
  destruct (off (pos s) - o' =? 0) eqn:E; cbn [negb call]; [reflexivity|].
  apply Z.eqb_neq in E. symmetry. apply RETURN_throws; [assumption|].
  intros Hoff. specialize (Ho Hoff). lia.
Qed.

Lemma adv_off (s s' : istream) : adv s s' -> off (pos s) <= off (pos s').
Proof. intros [E|L]; [rewrite E|]; lia. Qed.

(** X13.  Sequencing is associative over parsers that do not move
    backwards: [(p > q) > r] and [p > (q > r)] end the same way on every
    stream, a failure after consumption being escalated at the same point
    whichever way the sequence is nested. *)
Theorem seq_assoc {U T V : Type} `{Default T} `{Default V} (p : parser U)
    (q : parser T) (r : parser V) :
  advancing p -> advancing q -> advancing r ->
  forall s, parser_seq (parser_seq p q) r s = parser_seq p (parser_seq q r) s.
Proof.
  intros Ap Aq Ar s. unfold parser_seq.
  pose proof (Ap s) as Hp.
  destruct (p s) as [u s1| |]; cbn [call post] in *; try reflexivity.
  destruct (fail s1) eqn:Hf1; cbn [call]; [now rewrite Hf1|].
  pose proof (Aq s1) as Hq.
  destruct (q s1) as [t s2| |]; cbn [call post] in *; try reflexivity.
  destruct (fail s2) eqn:Hf2.
  - unfold RETURN at 1. destruct (failed_since (MARK s) s2) eqn:E; cbn [call].
    + symmetry. unfold RETURN. now rewrite E.
    + rewrite Hf2. unfold RETURN. now rewrite E.
  - unfold RETURN at 1. rewrite (failed_since_unfailed _ s2 Hf2). cbn [call].
    rewrite Hf2. pose proof (Ar s2) as Hr.
    destruct (r s2) as [v s3| |]; cbn [call post] in *; try reflexivity.
    symmetry. apply (RETURN_RETURN (MARK s) (MARK s1) (fun v => v)).
    unfold MARK, tellg. apply adv_off in Hp, Hq, Hr. lia.
Qed.

(** Over three character parsers, on ["abx"]. *)
Lemma seq_assoc_witness :
  parser_seq (parser_seq (chr (source_of "abx") "a") (chr (source_of "abx") "b"))
    (chr (source_of "abx") "c") s_fresh
  = parser_seq (chr (source_of "abx") "a")
      (parser_seq (chr (source_of "abx") "b") (chr (source_of "abx") "c")) s_fresh.
Proof.
  apply (seq_assoc (chr (source_of "abx") "a") (chr (source_of "abx") "b")
           (chr (source_of "abx") "c")); apply advancing_match.
Defined.

(** X14.  Concatenation is associative over parsers that do not move
    backwards: [(p + q) + r] and [p + (q + r)] end the same way on every
    stream and return the same string. *)
Theorem cat_assoc (p q r : parser (list ascii)) :
  advancing p -> advancing q -> advancing r ->
  forall s, parser_cat (parser_cat p q) r s = parser_cat p (parser_cat q r) s.
Proof.
  intros Ap Aq Ar s. unfold parser_cat.
  pose proof (Ap s) as Hp.
  destruct (p s) as [t1 s1| |]; cbn [call post] in *; try reflexivity.
  destruct (fail s1) eqn:Hf1; cbn [negb call]; [now rewrite Hf1|].
  pose proof (Aq s1) as Hq.
  destruct (q s1) as [t2 s2| |]; cbn [call post] in *; try reflexivity.
  destruct (fail s2) eqn:Hf2; cbn [negb call].
  - unfold RETURN. destruct (failed_since (MARK s) s2) eqn:E; cbn [call];
      [reflexivity|]. now rewrite Hf2.
  - unfold RETURN at 1. rewrite (failed_since_unfailed _ s2 Hf2). cbn [call].
    rewrite Hf2. cbn [negb]. pose proof (Ar s2) as Hr.
    destruct (r s2) as [t3 s3| |]; cbn [call post] in *; try reflexivity.
    rewrite <- app_assoc. symmetry.
    apply (RETURN_RETURN (MARK s) (MARK s1) (fun t' => t1 ++ t')).
    unfold MARK, tellg. apply adv_off in Hp, Hq, Hr. lia.
Qed.

(** Over three promoted character parsers, on ["ab"], where the third
    fails after two characters. *)
Lemma cat_assoc_witness :
  parser_cat
    (parser_cat (to_string_parser (chr (source_of "ab") "a"))
                (to_string_parser (chr (source_of "ab") "b")))
    (to_string_parser (chr (source_of "ab") "c")) s_fresh
  = parser_cat (to_string_parser (chr (source_of "ab") "a"))
      (parser_cat (to_string_parser (chr (source_of "ab") "b"))
                  (to_string_parser (chr (source_of "ab") "c"))) s_fresh.
Proof.
  apply (cat_assoc (to_string_parser (chr (source_of "ab") "a"))
           (to_string_parser (chr (source_of "ab") "b"))
           (to_string_parser (chr (source_of "ab") "c")));
    apply (built_parser_advancing true false (source_of "ab")), lib_map, lib_match;
      reflexivity.
Defined.

(** ** More on backtracking *)

Lemma istream_tellg_again (src : source) (s : istream) :
  istream_tellg src (snd (istream_tellg src s)) = istream_tellg src s.
Proof.
  unfold istream_tellg, sentry. destruct (good s) eqn:Hg; cbn [snd].
  - now rewrite Hg.
  - reflexivity.
Qed.

(** X15.  [try_(p)] never lets a [ParserError] out, whatever [p] and the
    stream are, and trying twice is trying once: [try_(try_(p))] ends as
    [try_(p)] on every stream. *)
Theorem try_catches_and_is_idempotent {T : Type} `{Default T} (src : source)
    (p : parser T) (s : istream) :
  (forall s', parser_try src p s <> ParserError s') /\
  parser_try src (parser_try src p) s = parser_try src p s.
Proof.
  split.
  - intros s'. unfold parser_try. destruct (istream_tellg src s) as [tg s0].
    destruct (p s0) as [t s1|s1|]; [discriminate| |discriminate].
    destruct tg; discriminate.
  - unfold parser_try at 1 2.
    pose proof (istream_tellg_again src s) as Hagain.
    pose proof (istream_tellg_pos src s) as Hpos.
    unfold parser_try at 1.
    destruct (istream_tellg src s) as [tg s0] eqn:Htg. cbn [snd] in *.
    rewrite Hagain, Hpos.
    destruct (p s0) as [t s1|s1|]; [reflexivity| |reflexivity].
    destruct tg; reflexivity.
Qed.

(** X16.  Over a source that cannot seek, [try_(p)] still turns the
    [ParserError] of [p] into a return with [T()], but restores nothing:
    the stream is left exactly where the exception left it, the characters
    read before the mismatch still consumed.  A return of [p] passes
    through. *)
Theorem try_without_seek {T : Type} `{Default T} (src : source) (p : parser T)
    (s : istream) :
  seekable src = false -> good s = true ->
  (forall s1, p s = ParserError s1 -> parser_try src p s = Return default s1) /\
  (forall t s1, p s = Return t s1 -> parser_try src p s = Return t s1).
Proof.
  intros Hs Hg. unfold parser_try, istream_tellg. rewrite (sentry_good s Hg), Hs.
  split.
  - intros s1 Hp. now rewrite Hp.
  - intros t s1 Hp. now rewrite Hp.
Qed.

(** On an unseekable ["ac"], [try_(skip("ab"))] returns with the flag set
    and the ['a'] gone: offset 1, not 0. *)
Lemma try_without_seek_witness :
  parser_try (mkSource ["a"; "c"]%char false)
    (parser_str (mkSource ["a"; "c"]%char false) "ab") s_fresh
  = Return tt (mkStream true false 1 (mkPos 1 1 2) "a").
Proof.
  destruct (try_without_seek (mkSource ["a"; "c"]%char false)
              (parser_str (mkSource ["a"; "c"]%char false) "ab") s_fresh
              eq_refl eq_refl) as (Hthrow & _).
  exact (Hthrow _ eq_refl).
Defined.

(** ** Alternation of character parsers *)

(** X17.  On a good stream, the alternation of two single-character leaves
    is the single-character leaf for the union of their classes, provided
    the first does not accept [char(EOF)]: [chr('_') | letter()] reads one
    character that is an underscore or a letter. *)
Theorem alt_of_matches (src : source) (m1 m2 : ascii -> bool) (s : istream) :
  good s = true -> m1 (to_char EOF) = false ->
  parser_alt (parser_match src m1) (parser_match src m2) s
  = parser_match src (fun c => m1 c || m2 c) s.
Proof.
  intros Hg Hm. unfold parser_alt.
  rewrite (match_step src m1 s Hg Hm).
  unfold parser_match at 2. rewrite (good_unfailed s Hg).
  destruct (rest src s) as [|a l] eqn:Hr.
  - cbn [call]. change (fail (setstate_failbit (setstate_eofbit s))) with true.
    cbn [negb]. rewrite (peek_end src s Hg Hr), Hm. cbn [orb].
    change (clear (setstate_failbit (setstate_eofbit s))) with (consumed s []).
    rewrite (consumed_nil s Hg). unfold parser_match.
    now rewrite (good_unfailed s Hg), (peek_end src s Hg Hr).
  - rewrite (peek_next src s a l Hg Hr). cbn [to_char].
    destruct (m1 a) eqn:Ha; cbn [call orb].
    + change (fail (consumed s [a])) with false. cbn [negb].
      now rewrite (consume_one src s a l Hg Hr).
    + change (fail (setstate_failbit s)) with true. cbn [negb].
      change (clear (setstate_failbit s)) with (consumed s []).
      rewrite (consumed_nil s Hg). unfold parser_match.
      now rewrite (good_unfailed s Hg), (peek_next src s a l Hg Hr).
Qed.

(** On ["x1"], [chr('_') | letter()] is the leaf for underscore-or-letter. *)
Lemma alt_of_matches_witness :
  parser_alt (chr (source_of "x1") "_") (letter (source_of "x1")) s_fresh
    = parser_match (source_of "x1") (fun c => Ascii.eqb c "_" || isalpha c) s_fresh /\
  parser_alt (chr (source_of "x1") "_") (letter (source_of "x1")) s_fresh
    = Return "x"%char (mkStream false false 1 (mkPos 1 1 2) "x").
Proof.
  split; [|reflexivity].
  exact (alt_of_matches (source_of "x1") (fun c => Ascii.eqb c "_") isalpha s_fresh
           eq_refl eq_refl).
Defined.

(** ** The void specialisations *)

Lemma sep_by_void_loop_as_sep_by {U : Type} (p : parser unit) (q : parser U) (_off : Z)
    (fuel : nat) :
  forall c s,
    sep_by_void_loop p q _off fuel s
    = call (sep_by_loop p q _off fuel c s) (fun _ s' => Return tt s').
Proof.
  induction fuel as [|fuel IH]; intros c s; [reflexivity|].
  rewrite sep_by_loop_S. cbn [sep_by_void_loop].
  destruct (q s) as [u s1| |]; cbn [call]; try reflexivity.
  destruct (fail s1); cbn [negb call]; [reflexivity|].
  destruct (p s1) as [[] s2| |]; cbn [call]; try reflexivity.
  unfold RETURN_IF_FAIL. destruct (fail s2).
  - now destruct (negb (tellg s2 _off =? 0)).
  - apply IH.
Qed.

Lemma many1_loop_unit (p : parser unit) (f : unit -> unit -> unit) (fuel : nat) :
  forall c s, many1_loop p f fuel c s = parser_many_void fuel p s.
Proof.
  induction fuel as [|fuel IH]; intros c s; [reflexivity|].
  cbn [many1_loop parser_many_void].
  destruct (p s) as [[] s1| |]; cbn [call]; try reflexivity.
  destruct (fail s1); cbn [negb]; [now destruct c | apply IH].
Qed.

(** X18.  The void specialisations are the general templates at the unit
    type.  On every stream [parser_seq<void, void>] (the body shared with
    [parser_seq<T, void>]) ends as [parser_seq<U, T>] does, [many1] for a
    void parser as [many1(p, f)] for any [f], and [sep_by] for a void
    parser as [sep_by<C>] with the collection dropped. *)
Theorem void_specialisations :
  (forall (p q : parser unit) s, parser_seq_void p q s = parser_seq p q s) /\
  (forall (p : parser unit) (f : unit -> unit -> unit) fuel s,
     parser_many1_void fuel p s = parser_many1 fuel p f s) /\
  (forall (U : Type) (p : parser unit) (q : parser U) fuel s,
     parser_sep_by_void fuel p q s
     = call (parser_sep_by fuel p q s) (fun _ s' => Return tt s')).
Proof.
  split; [|split].
  - intros p q s. unfold parser_seq_void, parser_seq.
    destruct (p s) as [[] s1| |]; cbn [call]; try reflexivity.
    destruct (fail s1); cbn [negb]; [reflexivity|].
    destruct (q s1) as [[] s2| |]; reflexivity.
  - intros p f fuel s. unfold parser_many1_void, parser_many1.
    destruct (p s) as [[] s1| |]; cbn [call]; try reflexivity.
    destruct (fail s1); cbn [negb]; [reflexivity|].
    symmetry. apply many1_loop_unit.
  - intros U p q fuel s. unfold parser_sep_by_void, parser_sep_by.
    destruct (p s) as [[] s1| |]; cbn [call]; try reflexivity.
    destruct (fail s1); cbn [negb call]; [reflexivity|].
    apply sep_by_void_loop_as_sep_by.
Qed.

(** ** Separated lists with a combiner *)

Lemma sep_by1_loop_S {T U : Type} `{Default T} (p : parser T) (q : parser U)
    (f : T -> T -> T) (_off : Z) (fuel : nat) (c : T) (s : istream) :
  sep_by1_loop p q f _off (S fuel) c s
  = call (q s) (fun _ s1 =>
      if fail s1 then Return c (clear s1)
      else call (p s1) (fun t s2 =>
             RETURN_IF_FAIL _off default s2 (sep_by1_loop p q f _off fuel (f c t) s2))).
Proof. reflexivity. Qed.

Lemma sep_by1_loop_run {T U : Type} `{Default T} (p : parser T) (q : parser U)
    (f : T -> T -> T) (_off : Z) (s : istream) (l : list T) (s2 : istream) :
  sep_iterates p q s l s2 ->
  forall c,
    (forall u s3, q s2 = Return u s3 -> fail s3 = true ->
       sep_by1_loop p q f _off (S (List.length l)) c s
       = Return (fold_left f l c) (clear s3)) /\
    (forall s3, q s2 = ParserError s3 ->
       sep_by1_loop p q f _off (S (List.length l)) c s = ParserError s3) /\
    (forall u s3, q s2 = Return u s3 -> fail s3 = false ->
       (forall t s4, p s3 = Return t s4 -> fail s4 = true -> off (pos s4) <> _off ->
          sep_by1_loop p q f _off (S (List.length l)) c s = ParserError s4) /\
       (forall t s4, p s3 = Return t s4 -> fail s4 = true -> off (pos s4) = _off ->
          sep_by1_loop p q f _off (S (List.length l)) c s = Return default s4) /\
       (forall s4, p s3 = ParserError s4 ->
          sep_by1_loop p q f _off (S (List.length l)) c s = ParserError s4)).
Proof.
  induction 1 as [s|s u s1 t s2 l s3 Hq Hf1 Hp Hf2 Hit IH]; intros c.
  - cbn [List.length fold_left]. split; [|split].
    + intros u s3 Hq Hf. rewrite sep_by1_loop_S, Hq. cbn [call]. now rewrite Hf.
    + intros s3 Hq. rewrite sep_by1_loop_S, Hq. reflexivity.
    + intros u s3 Hq Hf. split; [|split].
      * intros t s4 Hp Hf4 Ho. rewrite sep_by1_loop_S, Hq. cbn [call]. rewrite Hf, Hp.
        cbn [call]. now apply RETURN_IF_FAIL_moved.
      * intros t s4 Hp Hf4 Ho. rewrite sep_by1_loop_S, Hq. cbn [call]. rewrite Hf, Hp.
        cbn [call]. now apply RETURN_IF_FAIL_unmoved.
      * intros s4 Hp. rewrite sep_by1_loop_S, Hq. cbn [call]. rewrite Hf, Hp.
        reflexivity.
  - change (List.length (t :: l)) with (S (List.length l)).
    assert (Hstep : sep_by1_loop p q f _off (S (S (List.length l))) c s
                    = sep_by1_loop p q f _off (S (List.length l)) (f c t) s2).
    { rewrite sep_by1_loop_S, Hq. cbn [call]. rewrite Hf1, Hp. cbn [call].
      now apply RETURN_IF_FAIL_unfailed. }
    rewrite Hstep. cbn [fold_left]. exact (IH (f c t)).
Qed.

(** X19.  [sep_by1(p, q, f)].  When the first application of [p] fails,
    [sep_by1] fails as [p] did: a weak failure is returned with what [p]
    returned, a [ParserError] passes through.  After a first success, a
    weak failure of the separator ends the list with success, the elements
    folded from the left with [f]; an element missing after a separator
    throws [ParserError] if [p] threw or if the offset has moved since
    entry, and is otherwise returned as a weak failure with [T()]. *)
Theorem sep_by1_outcome {T U : Type} `{Default T} (p : parser T) (q : parser U)
    (f : T -> T -> T) :
  (forall fuel s c s1, p s = Return c s1 -> fail s1 = true ->
     parser_sep_by1 fuel p q f s = Return c s1) /\
  (forall fuel s s1, p s = ParserError s1 ->
     parser_sep_by1 fuel p q f s = ParserError s1) /\
  (forall s t0 s1 l s2 u s3,
     p s = Return t0 s1 -> fail s1 = false -> sep_iterates p q s1 l s2 ->
     q s2 = Return u s3 -> fail s3 = true ->
     parser_sep_by1 (S (List.length l)) p q f s
     = Return (fold_left f l t0) (clear s3)) /\
  (forall s t0 s1 l s2 u s3,
     p s = Return t0 s1 -> fail s1 = false -> sep_iterates p q s1 l s2 ->
     q s2 = Return u s3 -> fail s3 = false ->
     (forall t s4, p s3 = Return t s4 -> fail s4 = true ->
        off (pos s4) <> off (pos s) ->
        parser_sep_by1 (S (List.length l)) p q f s = ParserError s4) /\
     (forall t s4, p s3 = Return t s4 -> fail s4 = true ->
        off (pos s4) = off (pos s) ->
        parser_sep_by1 (S (List.length l)) p q f s = Return default s4) /\
     (forall s4, p s3 = ParserError s4 ->
        parser_sep_by1 (S (List.length l)) p q f s = ParserError s4)).
Proof.
  unfold parser_sep_by1, MARK, tellg.
  split; [|split; [|split]].
  - intros fuel s c s1 Hp Hf. rewrite Hp. cbn [call]. now rewrite Hf.
  - intros fuel s s1 Hp. now rewrite Hp.
  - intros s t0 s1 l s2 u s3 Hp Hf1 Hit Hq Hf3. rewrite Hp. cbn [call]. rewrite Hf1.
    destruct (sep_by1_loop_run p q f (off (pos s) - 0) s1 l s2 Hit t0) as (Hsep & _).
    apply (Hsep u s3 Hq Hf3).
  - intros s t0 s1 l s2 u s3 Hp Hf1 Hit Hq Hf3. rewrite Hp. cbn [call]. rewrite Hf1.
    destruct (sep_by1_loop_run p q f (off (pos s) - 0) s1 l s2 Hit t0) as (_ & _ & Hel).
    destruct (Hel u s3 Hq Hf3) as (Hmoved & Hunmoved & Hthrow).
    split; [|split].
    + intros t s4 Hp4 Hf4 Ho. apply (Hmoved t); auto. lia.
    + intros t s4 Hp4 Hf4 Ho. apply (Hunmoved t); auto. lia.
    + exact Hthrow.
Qed.

Lemma sep_iterates_123 :
  sep_iterates (digit (source_of "1,2,3")) (skip_chr (source_of "1,2,3") ",")
    (mkStream false false 1 (mkPos 1 1 2) "1") ["2"; "3"]%char
    (mkStream false false 5 (mkPos 5 1 6) "3").
Proof.
  apply sep_iterates_cons with (u := tt) (s1 := mkStream false false 2 (mkPos 2 1 3) ",")
    (s2 := mkStream false false 3 (mkPos 3 1 4) "2"); try reflexivity.
  apply sep_iterates_cons with (u := tt) (s1 := mkStream false false 4 (mkPos 4 1 5) ",")
    (s2 := mkStream false false 5 (mkPos 5 1 6) "3"); try reflexivity.
  apply sep_iterates_nil.
Defined.

(** On ["1,2,3"], [sep_by1(digit(), skip(','), later)] reads everything and
    returns the last digit. *)
Lemma sep_by1_outcome_witness :
  parser_sep_by1 3 (digit (source_of "1,2,3")) (skip_chr (source_of "1,2,3") ",") later
    s_fresh
  = Return "3"%char (mkStream false false 5 (mkPos 5 1 6) "3").
Proof.
  destruct (sep_by1_outcome (digit (source_of "1,2,3")) (skip_chr (source_of "1,2,3") ",")
              later) as (_ & _ & Hend & _).
  exact (Hend s_fresh "1"%char _ _ _ tt (mkStream true true 5 (mkPos 5 1 6) "3")
           eq_refl eq_refl sep_iterates_123 eq_refl eq_refl).
Defined.

(** ** Loops that do not end *)

(** X20.  [many(p)] does not return when [p] succeeds without changing the
    stream: from a stream that [p] leaves as it found it, flag clear, no
    number of iterations lets [many(p)], or [many] for a void [p], end. *)
Theorem many_loops_on_idle_success :
  (forall (T : Type) (p : parser T) s t, p s = Return t s -> fail s = false ->
     forall fuel, parser_many fuel p s = OutOfFuel) /\
  (forall (p : parser unit) s t, p s = Return t s -> fail s = false ->
     forall fuel, parser_many_void fuel p s = OutOfFuel).
Proof.
  split.
  - intros T p s t Hp Hf fuel. unfold parser_many. generalize (@nil T).
    induction fuel as [|fuel IH]; intros c; [reflexivity|].
    rewrite many_loop_S, Hp. cbn [call]. rewrite Hf. apply IH.
  - intros p s t Hp Hf fuel. induction fuel as [|fuel IH]; [reflexivity|].
    rewrite many_void_S, Hp. cbn [call]. rewrite Hf. exact IH.
Qed.

(** [many(eof())] at the end of input, [eofbit] latched: [eof()] succeeds
    for ever. *)
Lemma many_loops_on_idle_success_witness :
  parser_many_void 9 (parser_eof (source_of "")) s_at_eof = OutOfFuel.
Proof.
  destruct many_loops_on_idle_success as (_ & Hvoid).
  exact (Hvoid (parser_eof (source_of "")) s_at_eof tt eq_refl eq_refl 9%nat).
Defined.

(** ** Invariants of the parsers of the library *)

(** X21.  No parser built from the leaves and combinators moves backwards,
    whatever its leaves ([any_chr], [none_of] and every literal among them)
    and with [parser_chain] among the combinators, its parsing function
    running only parsers so built: however it ends, by return or by
    [ParserError], the position is the one of entry or the offset is
    greater. *)
Theorem built_parser_never_moves_back (eof_safe chains : bool) (src : source)
    {T : Type} (p : parser T) (s : istream) :
  built_parser eof_safe chains src p ->
  match p s with
  | Return _ s' | ParserError s' => pos s' = pos s \/ off (pos s) < off (pos s')
  | OutOfFuel => True
  end.
Proof.
  intros Hlib. pose proof (built_parser_advancing eof_safe chains src p Hlib s) as H.
  now destruct (p s).
Qed.

(** Any character and then the same again, [any_chr() >> f] for the [f]
    that runs [chr(c)] on the character [c] read: a chain over leaves of
    which one accepts [char(EOF)]. *)
Lemma built_parser_never_moves_back_witness :
  match
    parser_chain (any_chr (source_of "aa")) (fun c => chr (source_of "aa") c) s_fresh
  with
  | Return _ s' | ParserError s' => pos s' = pos s_fresh \/ off (pos s_fresh) < off (pos s')
  | OutOfFuel => True
  end.
Proof.
  apply (built_parser_never_moves_back false true (source_of "aa")).
  apply lib_chain; [reflexivity | |intros c]; apply lib_match; discriminate.
Defined.

Section InStep.
Variable chains : bool.
Variable src : source.

Lemma in_step_match (m : ascii -> bool) :
  m (to_char EOF) = false ->
  follows (fun _ => True) in_step (parser_match src m).
Proof.
  intros Hm s _. unfold parser_match. destruct (fail s); [reflexivity|].
  unfold peek, sentry. destruct (good s) eqn:Hg.
  - destruct (sgetc src s) as [a|] eqn:Ha; cbn [to_char].
    + destruct (m a); cbn [post]; [|reflexivity].
      unfold ignore. rewrite (sentry_good s Hg), Ha. unfold in_step, update_pos.
      cbn [pos gpos set_pos]. rewrite update_off. lia.
    + rewrite Hm. reflexivity.
  - rewrite Hm. reflexivity.
Qed.

Lemma in_step_eof : follows (fun _ => True) in_step (parser_eof src).
Proof.
  intros s _. unfold parser_eof. destruct (fail s); [reflexivity|].
  destruct (eof s); [reflexivity|].
  unfold peek, sentry. destruct (good s); [|reflexivity].
  destruct (sgetc src s); reflexivity.
Qed.

Lemma in_step_str_loop (_off : Z) (t : string) :
  strchr t (to_char EOF) = false ->
  forall s0 s, in_step s0 s -> post (in_step s0) (parser_str_loop src _off t s).
Proof.
  induction t as [|a t IH]; intros Ht s0 s H; cbn [parser_str_loop]; [assumption|].
  destruct (Ascii.eqb a char0) eqn:Ha; [assumption|].
  destruct (strchr_tail a t Ht Ha) as (Hn & Ht').
  unfold peek, sentry. destruct (good s) eqn:Hg.
  - destruct (sgetc src s) as [b|] eqn:Hb; cbv beta iota.
    + destruct (int_eqb (Some b) a).
      * apply IH; [assumption|]. unfold ignore. rewrite (sentry_good s Hg), Hb.
        unfold in_step, update_pos in *. cbn [pos gpos set_pos]. rewrite update_off. lia.
      * apply post_RETURN. exact H.
    + rewrite int_eqb_EOF, Hn. apply post_RETURN. exact H.
  - cbv beta iota. rewrite int_eqb_EOF, Hn. apply post_RETURN. exact H.
Qed.

Lemma in_step_str (t : string) :
  strchr t (to_char EOF) = false ->
  follows (fun _ => True) in_step (parser_str src t).
Proof.
  intros Ht s _. unfold parser_str. destruct (fail s); [reflexivity|].
  apply in_step_str_loop; [assumption | reflexivity].
Qed.

(** X22.  The offset tracks the file position.  For every parser built from
    the leaves that do not take the end of input for a character (character
    leaves whose [match] rejects [char(EOF)], literals that hold no
    [char(EOF)]) with the combinators, [parser_chain] among them when its
    parsing function runs only parsers so built: however it ends, the
    offset [pos.off] has moved by exactly as much as the read position of
    the source: [tellg(s, since)] is the number of characters read since,
    also after [try_] has put the stream back. *)
Theorem built_parser_offset_tracks_reads {T : Type} (p : parser T) (s : istream) :
  built_parser true chains src p ->
  match p s with
  | Return _ s' | ParserError s' =>
      off (pos s') - off (pos s) = Z.of_nat (gpos s') - Z.of_nat (gpos s)
  | OutOfFuel => True
  end.
Proof.
  intros Hlib.
  assert (H : follows (fun _ => True) in_step p).
  { apply (built_follows true chains src (fun _ => True) in_step); auto.
    - unfold in_step. intros s1 s2 Hp Hg. now rewrite Hp, Hg.
    - unfold in_step. intros s1 s2 s3 H1 H2. lia.
    - intros m Hm. apply in_step_match, Hm, eq_refl.
    - apply in_step_eof.
    - intros t Ht. apply in_step_str, Ht, eq_refl. }
  specialize (H s I). unfold in_step in H. destruct (p s); cbn [post] in H; auto; lia.
Qed.

End InStep.

(** On ["[x"], the grammar above reads two characters and is put back by
    [try_]: offset and read position both end where they began. *)
Lemma built_parser_offset_tracks_reads_witness :
  match
    parser_alt (parser_sep_by1 1 (digit (source_of "[x")) (skip_chr (source_of "[x") ",") later)
      (parser_try (source_of "[x")
         (parser_seq (parser_str (source_of "[x") "[")
            (parser_seq_void (letter (source_of "[x")) (parser_str (source_of "[x") "]"))))
      s_fresh
  with
  | Return _ s' | ParserError s' =>
      off (pos s') - off (pos s_fresh) = Z.of_nat (gpos s') - Z.of_nat (gpos s_fresh)
  | OutOfFuel => True
  end.
Proof.
  exact (built_parser_offset_tracks_reads false (source_of "[x") _ s_fresh
           (grammar_is_library (source_of "[x") 1)).
Defined.

(** X23.  At the end of input nothing moves.  For every parser built from
    the leaves that do not take the end of input for a character (character
    leaves whose [match] rejects [char(EOF)], literals that hold no
    [char(EOF)]) with the combinators, [parser_chain] among them when its
    parsing function runs only parsers so built: applied where the source
    has nothing left, the position and the read position are, however it
    ends, those of entry. *)
Theorem built_parser_reads_nothing_at_end (chains : bool) (src : source) {T : Type}
    (p : parser T) (s : istream) :
  built_parser true chains src p -> rest src s = [] ->
  match p s with
  | Return _ s' | ParserError s' => pos s' = pos s /\ gpos s' = gpos s
  | OutOfFuel => True
  end.
Proof.
  intros Hlib Hr.
  assert (He : at_end src s) by (unfold at_end; now rewrite sgetc_rest, Hr).
  pose proof (built_parser_stays_at_end chains src p Hlib s He) as H.
  now destruct (p s).
Qed.

(** On the empty input the grammar above leaves offset 0, row 1, column 1. *)
Lemma built_parser_reads_nothing_at_end_witness :
  match
    parser_alt (parser_sep_by1 1 (digit (source_of "")) (skip_chr (source_of "") ",") later)
      (parser_try (source_of "")
         (parser_seq (parser_str (source_of "") "[")
            (parser_seq_void (letter (source_of "")) (parser_str (source_of "") "]"))))
      s_fresh
  with
  | Return _ s' | ParserError s' => pos s' = pos s_fresh /\ gpos s' = gpos s_fresh
  | OutOfFuel => True
  end.
Proof.
  exact (built_parser_reads_nothing_at_end false (source_of "") _ s_fresh
           (grammar_is_library (source_of "") 1) eq_refl).
Defined.

(** For [skip(',')] after a digit. *)
Lemma seq_void_outcome_witness :
  parser_seq_void (digit (source_of "1;")) (skip_chr (source_of "1;") ",") s_fresh
  = ParserError (mkStream true false 1 (mkPos 1 1 2) "1").
Proof.
  destruct (seq_void_outcome (digit (source_of "1;")) (skip_chr (source_of "1;") ",")
              s_fresh) as (_ & _ & Hsucc).
  destruct (Hsucc "1"%char (mkStream false false 1 (mkPos 1 1 2) "1") eq_refl eq_refl)
    as (_ & Hesc & _).
  apply (Hesc tt); [reflexivity | reflexivity | discriminate].
Defined.
